(** * Subscription-Management: the database migration engine

    A shallow embedding of the class [DatabaseMigrations] of
    [server/db/migrations.js] and of its four-migration variant: the
    statement splitter [parseSQL], the version store ([initMigrationsTable],
    [getCurrentVersion]), the runner ([runMigrations]) and the migration
    bodies of both registries (four migrations, and the two of
    [migrations.js]).  The splitter, the version store, the runner and the
    loader of [schema.sql] are the same text in both files.

    The database handle is better-sqlite3's.  Of it the model keeps what the
    runner relies on: [exec] and prepared statements run on the file's
    content and return or throw; [transaction(fn)()] commits when [fn]
    returns and, when [fn] throws, rolls the content back to what it was at
    BEGIN and throws the exception again; [pragma] sets a connection-scoped
    flag that no rollback undoes.  Console output is left out.

    Layout: the model first (JavaScript strings, the splitter, the handle and
    the runner, the migration bodies, a small database for scenarios), then
    the theory. *)

From Stdlib Require Import Ascii String.
From Stdlib Require Import List ZArith Lia Bool Sorted.
Import ListNotations.

Set Implicit Arguments.

(* ================================================================== *)
(** * Part I.  The model                                               *)
(* ================================================================== *)

(** ** JavaScript strings

    A string is the list of its characters.  The methods used by the source
    ([split], [trim], [startsWith], [endsWith], [includes], [toUpperCase])
    are given on lists; white space and letter case are those of the ASCII
    range, which is what SQL schema text is written in. *)

Module JS.

Definition jsstring := list ascii.

(** A literal, written as a Rocq string. *)
Definition lit (s : string) : jsstring := list_ascii_of_string s.

(** The line feed, ['\n']. *)
Definition LF : ascii := ascii_of_nat 10.

(** White space and line terminators stripped by [String.prototype.trim]:
    TAB, LF, VT, FF, CR and SPACE. *)
Definition isWhiteSpace (c : ascii) : bool :=
  let n := nat_of_ascii c in
  ((9 <=? n) && (n <=? 13)) || (n =? 32).

Fixpoint trimStart (s : jsstring) : jsstring :=
  match s with
  | [] => []
  | c :: s' => if isWhiteSpace c then trimStart s' else s
  end.

Fixpoint trimEnd (s : jsstring) : jsstring :=
  match s with
  | [] => []
  | c :: s' =>
      match trimEnd s' with
      | [] => if isWhiteSpace c then [] else [c]
      | t => c :: t
      end
  end.

Definition trim (s : jsstring) : jsstring := trimEnd (trimStart s).

Definition upper (c : ascii) : ascii :=
  let n := nat_of_ascii c in
  if (97 <=? n) && (n <=? 122) then ascii_of_nat (n - 32) else c.

Definition toUpperCase (s : jsstring) : jsstring := map upper s.

Fixpoint startsWith (p s : jsstring) : bool :=
  match p, s with
  | [], _ => true
  | _ :: _, [] => false
  | a :: p', b :: s' => Ascii.eqb a b && startsWith p' s'
  end.

Definition endsWith (p s : jsstring) : bool := startsWith (rev p) (rev s).

Fixpoint includes (p s : jsstring) : bool :=
  startsWith p s ||
  match s with
  | [] => false
  | _ :: s' => includes p s'
  end.

(** [s.split('\n')]: always at least one piece; a trailing line feed yields a
    last empty piece. *)
Fixpoint split_lines (s : jsstring) : list jsstring :=
  match s with
  | [] => [[]]
  | c :: s' =>
      if Ascii.eqb c LF then [] :: split_lines s'
      else match split_lines s' with
           | l :: ls => (c :: l) :: ls
           | [] => [[c]]
           end
  end.

(** Nothing but white space. *)
Definition all_white (s : jsstring) : bool := forallb isWhiteSpace s.

(** An empty string is falsy, any other string truthy. *)
Definition truthy (s : jsstring) : bool :=
  match s with [] => false | _ :: _ => true end.

End JS.

Import JS.

(** ** The statement splitter, [parseSQL] *)

Module Splitter.

(** The three locals of [parseSQL]. *)
Record PState : Type := mkPState {
  statements : list jsstring;
  currentStatement : jsstring;
  inTrigger : bool
}.

Definition initial : PState :=
  {| statements := []; currentStatement := []; inTrigger := false |}.

Definition CREATE_TRIGGER : jsstring := lit "CREATE TRIGGER".
Definition END_MARK : jsstring := lit "END;".
Definition SEMI : jsstring := lit ";".

(** One iteration of [for (const line of lines)]. *)
Definition parse_line (st : PState) (line : jsstring) : PState :=
  let trimmedLine := trim line in
  if negb (truthy trimmedLine) then st (* continue *)
  else
    let inTrigger1 :=
      if startsWith CREATE_TRIGGER (toUpperCase trimmedLine) then true
      else inTrigger st in
    let current1 := currentStatement st ++ line ++ [LF] in
    if endsWith SEMI trimmedLine then
      if inTrigger1 && includes END_MARK (toUpperCase trimmedLine) then
        {| statements := statements st ++ [trim current1];
           currentStatement := [];
           inTrigger := false |}
      else if negb inTrigger1 then
        {| statements := statements st ++ [trim current1];
           currentStatement := [];
           inTrigger := inTrigger1 |}
      else
        {| statements := statements st;
           currentStatement := current1;
           inTrigger := inTrigger1 |}
    else
      {| statements := statements st;
         currentStatement := current1;
         inTrigger := inTrigger1 |}.

Definition parse_lines (lines : list jsstring) (st : PState) : PState :=
  fold_left parse_line lines st.

(** The residual buffer is pushed when it is not blank. *)
Definition flush (st : PState) : list jsstring :=
  if truthy (trim (currentStatement st))
  then statements st ++ [trim (currentStatement st)]
  else statements st.

Definition parseSQL (sql : jsstring) : list jsstring :=
  flush (parse_lines (split_lines sql) initial).

(** Vocabulary of the properties. *)

(** A line is blank when nothing is left of it after trimming. *)
Definition blank (line : jsstring) : bool := negb (truthy (trim line)).

Definition visible (line : jsstring) : bool := negb (blank line).

(** What [currentStatement += line + '\n'] accumulates over some lines. *)
Definition joined (lines : list jsstring) : jsstring :=
  concat (map (fun l => l ++ [LF]) lines).

(** The statement pushed for a buffer made of [lines]. *)
Definition rendered (lines : list jsstring) : jsstring := trim (joined lines).

(** A line that ends a trigger: its trimmed text ends with [;] and its
    upper-case form contains [END;]. *)
Definition closes (line : jsstring) : bool :=
  endsWith SEMI (trim line) && includes END_MARK (toUpperCase (trim line)).

(** A line that opens a trigger. *)
Definition opens (line : jsstring) : bool :=
  startsWith CREATE_TRIGGER (toUpperCase (trim line)).

(** Text made of lines, each followed by a line feed. *)
Definition text (lines : list string) : jsstring :=
  joined (map lit lines).

End Splitter.

Import Splitter.

(** Scenarios for the splitter. *)

Definition two_tables : jsstring :=
  text [ "CREATE TABLE t (id INT);" ; "CREATE TABLE u (id INT);" ]%string.

(** A trigger whose body has a [CASE ... END;] line before its closing
    [END;]. *)
Definition trigger_with_case : jsstring :=
  text [ "CREATE TRIGGER trg AFTER UPDATE ON t" ;
         "BEGIN" ;
         "  UPDATE t SET flag = CASE WHEN NEW.n > 0 THEN 1 ELSE 0 END;" ;
         "  UPDATE t SET touched = 1;" ;
         "END;" ]%string.

(** The splitter two lines into a trigger: the header and [BEGIN] are in the
    buffer and the flag is set. *)
Definition open_trigger : PState :=
  mkPState [] (text ["CREATE TRIGGER trg AFTER UPDATE ON t"; "BEGIN"]%string) true.

(** ** The database handle and the runner *)

Module Engine.

(** What a call can throw: an error of the database engine, or any other
    JavaScript exception (a failing [fs.readFileSync], for instance). *)
Inductive Error : Type :=
| SqliteError (message : string)
| JsError (message : string).

Inductive Outcome (A : Type) : Type :=
| Returned (a : A)
| Thrown (e : Error).

Arguments Thrown {A} e.

(** A row of the bookkeeping table [migrations].  The columns [id] and
    [executed_at] are filled in by the database and read by nothing here. *)
Record Row : Type := mkRow {
  row_version : Z;
  row_name : string
}.

(** What a run does that leaves no mark in the database: the transaction
    boundaries, the calls of descriptor actions and the attempted inserts
    into the bookkeeping table. *)
Inductive Event : Type :=
| EvBegin
| EvCommit
| EvRollback
| EvUp (version : Z)
| EvInsert (version : Z) (name : string).

(** The versions whose action was called, in call order. *)
Fixpoint attempted (t : list Event) : list Z :=
  match t with
  | [] => []
  | EvUp v :: t' => v :: attempted t'
  | _ :: t' => attempted t'
  end.

Definition is_begin (ev : Event) : bool :=
  match ev with EvBegin => true | _ => false end.

Definition is_insert (ev : Event) : bool :=
  match ev with EvInsert _ _ => true | _ => false end.

Section Model.

(** Everything stored in the database file apart from the bookkeeping
    table: user tables, indexes, triggers, rows. *)
Variable Schema : Type.

(** The transactional content of the database file; [migrations_table] is
    [None] as long as the table [migrations] does not exist. *)
Record DB : Type := mkDB {
  schema : Schema;
  migrations_table : option (list Row)
}.

(** The connection [this.db]: the file's content and the connection-scoped
    [foreign_keys] setting. *)
Record Conn : Type := mkConn {
  db : DB;
  foreign_keys : bool
}.

(** A call on the handle: it returns or throws, leaves a connection behind
    and a trace of events. *)
Definition M (A : Type) : Type := Conn -> Outcome A * Conn * list Event.

Definition ret {A} (a : A) : M A := fun c => (Returned a, c, []).

Definition throw {A} (e : Error) : M A := fun c => (Thrown e, c, []).

Definition bind {A B} (m : M A) (k : A -> M B) : M B := fun c =>
  match m c with
  | (Returned a, c1, t1) =>
      match k a c1 with (r, c2, t2) => (r, c2, t1 ++ t2) end
  | (Thrown e, c1, t1) => (Thrown e, c1, t1)
  end.

(** [try { m } catch (error) { h error }] *)
Definition try_catch {A} (m : M A) (h : Error -> M A) : M A := fun c =>
  match m c with
  | (Returned a, c1, t1) => (Returned a, c1, t1)
  | (Thrown e, c1, t1) =>
      match h e c1 with (r, c2, t2) => (r, c2, t1 ++ t2) end
  end.

Definition emit (ev : Event) : M unit := fun c => (Returned tt, c, [ev]).

(** A statement run on the file's content. *)
Definition on_db {A} (f : DB -> Outcome A * DB) : M A := fun c =>
  match f (db c) with
  | (r, d) => (r, {| db := d; foreign_keys := foreign_keys c |}, [])
  end.

(** [this.db.transaction(fn)()]: BEGIN, the body, then COMMIT; when the body
    throws, ROLLBACK restores the content the file had at BEGIN and the
    exception is thrown again. *)
Definition transaction {A} (body : M A) : M A := fun c =>
  match body c with
  | (Returned a, c1, t1) => (Returned a, c1, EvBegin :: t1 ++ [EvCommit])
  | (Thrown e, c1, t1) =>
      (Thrown e, {| db := db c; foreign_keys := foreign_keys c1 |},
       EvBegin :: t1 ++ [EvRollback])
  end.

(** [this.db.pragma('foreign_keys = ON')] *)
Definition pragma_foreign_keys_on : M unit := fun c =>
  (Returned tt, {| db := db c; foreign_keys := true |}, []).

(** [CREATE TABLE IF NOT EXISTS migrations (...)] *)
Definition create_migrations_table (d : DB) : Outcome unit * DB :=
  match migrations_table d with
  | Some _ => (Returned tt, d)
  | None => (Returned tt, {| schema := schema d; migrations_table := Some [] |})
  end.

Definition initMigrationsTable : M unit := on_db create_migrations_table.

(** SQL's [MAX]: NULL over no row. *)
Fixpoint sql_max (vs : list Z) : option Z :=
  match vs with
  | [] => None
  | v :: vs' =>
      match sql_max vs' with
      | None => Some v
      | Some w => Some (Z.max v w)
      end
  end.

(** [SELECT MAX(version) as version FROM migrations] *)
Definition select_max_version (d : DB) : Outcome (option Z) * DB :=
  match migrations_table d with
  | None => (Thrown (SqliteError "no such table: migrations"), d)
  | Some rows => (Returned (sql_max (map row_version rows)), d)
  end.

(** [result.version || 0]: NULL and 0 are falsy. *)
Definition or_zero (v : option Z) : Z :=
  match v with
  | None => 0
  | Some z => if (z =? 0)%Z then 0%Z else z
  end.

Definition getCurrentVersion : M Z :=
  try_catch
    (bind (on_db select_max_version) (fun result => ret (or_zero result)))
    (fun _ => ret 0%Z).

(** [INSERT INTO migrations (version, name) VALUES (?, ?)]; the column
    [version] is UNIQUE. *)
Definition insert_migration (v : Z) (n : string) (d : DB) : Outcome unit * DB :=
  match migrations_table d with
  | None => (Thrown (SqliteError "no such table: migrations"), d)
  | Some rows =>
      if existsb (Z.eqb v) (map row_version rows)
      then (Thrown (SqliteError "UNIQUE constraint failed: migrations.version"), d)
      else (Returned tt,
            {| schema := schema d;
               migrations_table := Some (rows ++ [mkRow v n]) |})
  end.

(** A migration descriptor.  The action [up] works through the handle on the
    file's content; when it throws, the content it leaves is the one it had
    reached. *)
Record Migration : Type := mkMigration {
  version : Z;
  name : string;
  up : DB -> Outcome unit * DB
}.

(** The function handed to [this.db.transaction]. *)
Definition migration_body (m : Migration) : M unit :=
  bind (emit (EvUp (version m))) (fun _ =>
  bind (on_db (up m)) (fun _ =>
  bind (emit (EvInsert (version m) (name m))) (fun _ =>
  on_db (insert_migration (version m) (name m))))).

(** One iteration of [for (const migration of pendingMigrations)]. *)
Definition run_one (m : Migration) : M unit :=
  try_catch (transaction (migration_body m)) (fun error => throw error).

Fixpoint run_pending (pendingMigrations : list Migration) : M unit :=
  match pendingMigrations with
  | [] => ret tt
  | m :: rest => bind (run_one m) (fun _ => run_pending rest)
  end.

Definition pending (migrations : list Migration) (currentVersion : Z) : list Migration :=
  filter (fun m => (currentVersion <? version m)%Z) migrations.

(** [runMigrations]; a thrown outcome is the rejection of the promise the
    [async] method returns. *)
Definition runMigrations (migrations : list Migration) : M unit :=
  bind pragma_foreign_keys_on (fun _ =>
  bind initMigrationsTable (fun _ =>
  bind getCurrentVersion (fun currentVersion =>
  let pendingMigrations := pending migrations currentVersion in
  match pendingMigrations with
  | [] => ret tt
  | _ :: _ => run_pending pendingMigrations
  end))).

(** Vocabulary of the properties. *)

Definition outcome_of {A} (r : Outcome A * Conn * list Event) : Outcome A := fst (fst r).
Definition conn_of {A} (r : Outcome A * Conn * list Event) : Conn := snd (fst r).
Definition trace_of {A} (r : Outcome A * Conn * list Event) : list Event := snd r.

(** The versions recorded in the bookkeeping table. *)
Definition recorded (d : DB) : list Z :=
  match migrations_table d with
  | None => []
  | Some rows => map row_version rows
  end.

Definition versions (migrations : list Migration) : list Z := map version migrations.

(** The connection once [runMigrations] has set the pragma and ensured the
    bookkeeping table. *)
Definition prepared (c : Conn) : Conn :=
  conn_of (bind pragma_foreign_keys_on (fun _ => initMigrationsTable) c).

(** The value [getCurrentVersion] returns on a connection. *)
Definition currentVersion (c : Conn) : Z :=
  match outcome_of (getCurrentVersion c) with
  | Returned v => v
  | Thrown _ => 0%Z
  end.

(** The transaction of [m], started on content [d], fails with [e]: its
    action throws [e], or its action returns and the bookkeeping insert
    throws [e]. *)
Inductive body_raises (m : Migration) (d : DB) (e : Error) : Prop :=
| action_raises (d' : DB) :
    up m d = (Thrown e, d') -> body_raises m d e
| insert_raises (d1 d2 : DB) :
    up m d = (Returned tt, d1) ->
    insert_migration (version m) (name m) d1 = (Thrown e, d2) ->
    body_raises m d e.

(** The recorded versions are registry versions, and no registry version is
    recorded while a lower one is not. *)
Definition prefix_closed_in (registry_versions recorded_versions : list Z) : Prop :=
  (forall v, In v recorded_versions -> In v registry_versions) /\
  (forall u v, In u registry_versions -> In v registry_versions ->
               (u < v)%Z -> In v recorded_versions -> In u recorded_versions).

(** The connections a database comes to through runs of one registry,
    starting with nothing recorded. *)
Inductive reachable (migrations : list Migration) : Conn -> Prop :=
| reachable_fresh (c : Conn) :
    recorded (db c) = [] -> reachable migrations c
| reachable_run (c : Conn) :
    reachable migrations c ->
    reachable migrations (conn_of (runMigrations migrations c)).

(** An action that returns leaves the bookkeeping table as it found it. *)
Definition frames_bookkeeping (m : Migration) : Prop :=
  forall d d', up m d = (Returned tt, d') ->
               migrations_table d' = migrations_table d.

(** Versions are positive integers. *)
Definition positive_version (m : Migration) : Prop := (0 < version m)%Z.

(** Two runs in a row: the first calls every action once, in registry
    order; the second calls none and leaves the current version alone. *)
Definition rerun_is_idle (migrations : list Migration) (c : Conn) : Prop :=
  let first := runMigrations migrations c in
  let second := runMigrations migrations (conn_of first) in
  attempted (trace_of first) = versions migrations /\
  attempted (trace_of second) = [] /\
  currentVersion (conn_of second) = currentVersion (conn_of first).

(** The rows of the bookkeeping table; none while the table does not
    exist. *)
Definition rows (d : DB) : list Row :=
  match migrations_table d with
  | None => []
  | Some rs => rs
  end.

(** The row the runner inserts for a descriptor. *)
Definition row_of (m : Migration) : Row := mkRow (version m) (name m).

End Model.

End Engine.

Import Engine.

(** ** Actions on the file's content

    The migration bodies call [this.db.exec] and nothing else of the
    handle, so they are written over the content alone. *)

Module Act.

Section Combinators.

Variable Schema : Type.

Definition Act (A : Type) : Type := DB Schema -> Outcome A * DB Schema.

Definition ret {A} (a : A) : Act A := fun d => (Returned a, d).

Definition throw {A} (e : Error) : Act A := fun d => (Thrown e, d).

Definition bind {A B} (m : Act A) (k : A -> Act B) : Act B := fun d =>
  match m d with
  | (Returned a, d1) => k a d1
  | (Thrown e, d1) => (Thrown e, d1)
  end.

(** [try { m } catch (error) { h error }] *)
Definition try_catch {A} (m : Act A) (h : Error -> Act A) : Act A := fun d =>
  match m d with
  | (Returned a, d1) => (Returned a, d1)
  | (Thrown e, d1) => h e d1
  end.

(** [for (const x of xs) { body x }] *)
Fixpoint for_each {X} (body : X -> Act unit) (xs : list X) : Act unit :=
  match xs with
  | [] => ret tt
  | x :: xs' => bind (body x) (fun _ => for_each body xs')
  end.

(** An action that leaves the bookkeeping table as it found it, whether it
    returns or throws. *)
Definition keeps_bookkeeping {A} (a : Act A) : Prop :=
  forall d r d', a d = (r, d') -> migrations_table d' = migrations_table d.

End Combinators.

End Act.

(** ** The migration bodies of the four-migration registry *)

Module Migrations.

(** The SQL handed to [this.db.exec]: a statement cut out of [schema.sql] by
    [parseSQL], or one of the fixed texts of the migration bodies, named
    after what it does. *)
Inductive Stmt : Type :=
| SchemaStatement (sql : jsstring)
| ALTER_settings_ADD_language
| CREATE_notification_settings
| CREATE_notification_channels
| CREATE_notification_history
| CREATE_notification_templates
| CREATE_notification_indexes
| INSERT_notification_settings
| INSERT_notification_templates
| CREATE_scheduler_settings
| CREATE_scheduler_settings_trigger
| INSERT_scheduler_settings
| ALTER_notification_settings_ADD_repeat_notification
| UPDATE_notification_settings_repeat_notification.

(** The error of an [ADD COLUMN] whose column is already there. *)
Definition duplicate_column (column : string) : Error :=
  SqliteError ("duplicate column name: " ++ column).

Section Bodies.

Variable Schema : Type.

(** [this.db.exec(sql)], the database engine's doing. *)
Variable exec : Stmt -> Act.Act Schema unit.

(** [fs.readFileSync(schemaPath, 'utf8')]: the text of [schema.sql], or the
    exception of a failed read. *)
Variable readSchemaFile : Outcome jsstring.

(** [lines.join('\n')] *)
Fixpoint join_lines (lines : list jsstring) : jsstring :=
  match lines with
  | [] => []
  | [l] => l
  | l :: ls => l ++ LF :: join_lines ls
  end.

Definition keep_line (line : jsstring) : bool :=
  negb (startsWith (lit "--") (trim line)) &&
  negb (startsWith (lit "PRAGMA") (trim line)).

Definition cleanSQL (schemaSQL : jsstring) : jsstring :=
  join_lines (filter keep_line (split_lines schemaSQL)).

Definition exec_all (stmts : list Stmt) : Act.Act Schema unit :=
  Act.for_each exec stmts.

Definition migration_001_initial_schema_consolidated : Act.Act Schema unit :=
  Act.try_catch
    (match readSchemaFile with
     | Thrown e => Act.throw e
     | Returned schemaSQL =>
         Act.for_each
           (fun statement =>
              if truthy (trim statement)
              then Act.try_catch (exec (SchemaStatement statement))
                                 (fun error => Act.throw error)
              else Act.ret tt)
           (parseSQL (cleanSQL schemaSQL))
     end)
    (fun error => Act.throw error).

(** The statements of migration 002 after the guarded [ALTER TABLE]. *)
Definition notification_system : list Stmt :=
  [ CREATE_notification_settings; CREATE_notification_channels;
    CREATE_notification_history; CREATE_notification_templates;
    CREATE_notification_indexes; INSERT_notification_settings;
    INSERT_notification_templates ].

Definition migration_002_add_notification_system : Act.Act Schema unit :=
  Act.bind
    (Act.try_catch (exec ALTER_settings_ADD_language)
                   (fun _ => Act.ret tt))
    (fun _ => exec_all notification_system).

Definition migration_003_add_scheduler_settings : Act.Act Schema unit :=
  exec_all [ CREATE_scheduler_settings; CREATE_scheduler_settings_trigger;
             INSERT_scheduler_settings ].

Definition migration_004_add_repeat_notification_setting : Act.Act Schema unit :=
  Act.bind
    (Act.try_catch (exec ALTER_notification_settings_ADD_repeat_notification)
                   (fun _ => Act.ret tt))
    (fun _ => exec UPDATE_notification_settings_repeat_notification).

(** [this.migrations] *)
Definition migrations : list (Migration Schema) :=
  [ mkMigration 1 "initial_schema_consolidated"
      migration_001_initial_schema_consolidated;
    mkMigration 2 "add_notification_system"
      migration_002_add_notification_system;
    mkMigration 3 "add_scheduler_settings"
      migration_003_add_scheduler_settings;
    mkMigration 4 "add_repeat_notification_setting"
      migration_004_add_repeat_notification_setting ].

(** Of the errors the guarded statement [alter] can throw, every one but the
    duplicate of [column] comes out of [migration]. *)
Definition propagates_other_errors
  (alter : Stmt) (column : string) (migration : Act.Act Schema unit) : Prop :=
  forall d e d1,
    exec alter d = (Thrown e, d1) ->
    e <> duplicate_column column ->
    fst (migration d) = Thrown e.

End Bodies.

End Migrations.

Import Migrations.

(** ** The migration bodies of the two-migration registry

    [server/db/migrations.js] registers two migrations: the same initial
    schema loader, and a second migration whose statements have texts of
    their own. *)

Module TelegramVariant.

Inductive Stmt : Type :=
| SchemaStatement (sql : jsstring)
| CREATE_notification_settings
| CREATE_notification_channels
| CREATE_notification_history
| CREATE_notification_templates
| CREATE_notification_indexes
| INSERT_notification_settings
| INSERT_notification_templates.

Section Bodies.

Variable Schema : Type.

(** [this.db.exec(sql)] *)
Variable exec : Stmt -> Act.Act Schema unit.

(** [fs.readFileSync(schemaPath, 'utf8')] *)
Variable readSchemaFile : Outcome jsstring.

Definition exec_all (stmts : list Stmt) : Act.Act Schema unit :=
  Act.for_each exec stmts.

Definition migration_001_initial_schema_consolidated : Act.Act Schema unit :=
  Act.try_catch
    (match readSchemaFile with
     | Thrown e => Act.throw e
     | Returned schemaSQL =>
         Act.for_each
           (fun statement =>
              if truthy (trim statement)
              then Act.try_catch (exec (SchemaStatement statement))
                                 (fun error => Act.throw error)
              else Act.ret tt)
           (parseSQL (cleanSQL schemaSQL))
     end)
    (fun error => Act.throw error).

Definition migration_002_add_notification_tables_telegram : Act.Act Schema unit :=
  exec_all
    [ CREATE_notification_settings; CREATE_notification_channels;
      CREATE_notification_history; CREATE_notification_templates;
      CREATE_notification_indexes; INSERT_notification_settings;
      INSERT_notification_templates ].

(** [this.migrations] *)
Definition migrations : list (Migration Schema) :=
  [ mkMigration 1 "initial_schema_consolidated"
      migration_001_initial_schema_consolidated;
    mkMigration 2 "add_notification_tables_telegram"
      migration_002_add_notification_tables_telegram ].

End Bodies.

End TelegramVariant.

(** ** A small database to run scenarios on

    The schema is the list of tables with their column names; a statement
    fails the way SQLite's does when its table or column is missing or
    already there. *)

Module Toy.

Local Open Scope string_scope.

Definition TSchema : Type := list (string * list string).

Definition has_table (t : string) (s : TSchema) : bool :=
  existsb (fun p => String.eqb (fst p) t) s.

Fixpoint columns_of (t : string) (s : TSchema) : option (list string) :=
  match s with
  | [] => None
  | (t', cols) :: s' => if String.eqb t' t then Some cols else columns_of t s'
  end.

Fixpoint add_column (t c : string) (s : TSchema) : TSchema :=
  match s with
  | [] => []
  | (t', cols) :: s' =>
      if String.eqb t' t then (t', (cols ++ [c])%list) :: s'
      else (t', cols) :: add_column t c s'
  end.

Definition with_schema (s : TSchema) (d : DB TSchema) : DB TSchema :=
  {| schema := s; migrations_table := migrations_table d |}.

Definition no_such_table (t : string) : Error :=
  SqliteError ("no such table: " ++ t).

Definition no_such_column (c : string) : Error :=
  SqliteError ("no such column: " ++ c).

(** [ALTER TABLE t ADD COLUMN c ...] *)
Definition alter_add_column (t c : string) : Act.Act TSchema unit := fun d =>
  match columns_of t (schema d) with
  | None => (Thrown (no_such_table t), d)
  | Some cols =>
      if existsb (String.eqb c) cols
      then (Thrown (duplicate_column c), d)
      else (Returned tt, with_schema (add_column t c (schema d)) d)
  end.

(** [CREATE TABLE IF NOT EXISTS t (...)] *)
Definition create_table (t : string) (cols : list string) : Act.Act TSchema unit := fun d =>
  if has_table t (schema d) then (Returned tt, d)
  else (Returned tt, with_schema (schema d ++ [(t, cols)])%list d).

(** A statement that reads or writes table [t] and changes no schema. *)
Definition uses_table (t : string) : Act.Act TSchema unit := fun d =>
  if has_table t (schema d) then (Returned tt, d)
  else (Thrown (no_such_table t), d).

(** [UPDATE t SET c = ...] *)
Definition update_column (t c : string) : Act.Act TSchema unit := fun d =>
  match columns_of t (schema d) with
  | None => (Thrown (no_such_table t), d)
  | Some cols =>
      if existsb (String.eqb c) cols then (Returned tt, d)
      else (Thrown (no_such_column c), d)
  end.

Definition exec (st : Stmt) : Act.Act TSchema unit :=
  match st with
  | SchemaStatement _ => Act.ret tt
  | ALTER_settings_ADD_language => alter_add_column "settings" "language"
  | CREATE_notification_settings =>
      create_table "notification_settings"
        ["id"; "user_id"; "notification_type"; "is_enabled"; "advance_days";
         "notification_channels"; "created_at"; "updated_at"]
  | CREATE_notification_channels =>
      create_table "notification_channels"
        ["id"; "user_id"; "channel_type"; "channel_config"; "is_active";
         "last_used_at"; "created_at"; "updated_at"]
  | CREATE_notification_history =>
      create_table "notification_history"
        ["id"; "user_id"; "subscription_id"; "notification_type";
         "channel_type"; "status"; "recipient"; "message_content";
         "error_message"; "sent_at"; "created_at"]
  | CREATE_notification_templates =>
      create_table "notification_templates"
        ["id"; "notification_type"; "language"; "channel_type";
         "template_name"; "subject_template"; "content_template";
         "is_active"; "created_at"; "updated_at"]
  | CREATE_notification_indexes => uses_table "notification_settings"
  | INSERT_notification_settings => uses_table "notification_settings"
  | INSERT_notification_templates => uses_table "notification_templates"
  | CREATE_scheduler_settings =>
      create_table "scheduler_settings"
        ["id"; "user_id"; "notification_check_time"; "timezone";
         "is_enabled"; "created_at"; "updated_at"]
  | CREATE_scheduler_settings_trigger => uses_table "scheduler_settings"
  | INSERT_scheduler_settings => uses_table "scheduler_settings"
  | ALTER_notification_settings_ADD_repeat_notification =>
      alter_add_column "notification_settings" "repeat_notification"
  | UPDATE_notification_settings_repeat_notification =>
      update_column "notification_settings" "repeat_notification"
  end.

(** A database file just created: no table at all. *)
Definition empty_db : DB TSchema :=
  {| schema := []; migrations_table := None |}.

Definition fresh : Conn TSchema :=
  {| db := empty_db; foreign_keys := false |}.

(** An action that creates one table. *)
Definition creates (t : string) : Act.Act TSchema unit :=
  create_table t ["id"].

(** An action that creates one table and then fails. *)
Definition creates_then_fails (t : string) : Act.Act TSchema unit :=
  Act.bind (create_table t ["id"]) (fun _ => Act.throw (JsError "boom")).

Definition m1 : Migration TSchema := mkMigration 1 "one" (creates "a").
Definition m2 : Migration TSchema := mkMigration 2 "two" (creates "b").
Definition m3 : Migration TSchema := mkMigration 3 "three" (creates "c").
Definition m2_failing : Migration TSchema :=
  mkMigration 2 "two" (creates_then_fails "b").

(** A second descriptor of version 1: its insert hits the UNIQUE column. *)
Definition m1_again : Migration TSchema := mkMigration 1 "one again" (creates "z").

Definition registry_ok : list (Migration TSchema) := [m1; m2; m3].
Definition registry_failing : list (Migration TSchema) := [m1; m2_failing; m3].
Definition registry_duplicate : list (Migration TSchema) := [m1; m1_again; m3].

(** The four-migration registry over this database, reading a [schema.sql]
    of two tables. *)
Definition real_registry : list (Migration TSchema) :=
  migrations exec (Returned two_tables).

Definition exec_telegram (st : TelegramVariant.Stmt) : Act.Act TSchema unit :=
  match st with
  | TelegramVariant.SchemaStatement _ => Act.ret tt
  | TelegramVariant.CREATE_notification_settings =>
      create_table "notification_settings"
        ["id"; "user_id"; "notification_type"; "is_enabled"; "advance_days";
         "notification_channels"; "time_window_start"; "time_window_end";
         "created_at"; "updated_at"]
  | TelegramVariant.CREATE_notification_channels =>
      create_table "notification_channels"
        ["id"; "user_id"; "channel_type"; "channel_config"; "is_active";
         "last_used_at"; "created_at"; "updated_at"]
  | TelegramVariant.CREATE_notification_history =>
      create_table "notification_history"
        ["id"; "user_id"; "subscription_id"; "notification_type";
         "channel_type"; "status"; "recipient"; "message_content";
         "error_message"; "retry_count"; "max_retry"; "scheduled_at";
         "sent_at"; "created_at"]
  | TelegramVariant.CREATE_notification_templates =>
      create_table "notification_templates"
        ["id"; "notification_type"; "language"; "channel_type";
         "template_name"; "subject_template"; "content_template";
         "is_active"; "created_at"; "updated_at"]
  | TelegramVariant.CREATE_notification_indexes => uses_table "notification_settings"
  | TelegramVariant.INSERT_notification_settings => uses_table "notification_settings"
  | TelegramVariant.INSERT_notification_templates => uses_table "notification_templates"
  end.

(** The two-migration registry over this database. *)
Definition telegram_registry : list (Migration TSchema) :=
  TelegramVariant.migrations exec_telegram (Returned two_tables).

(** The connection after [m1] went through on a fresh database. *)
Definition after_m1 : Conn TSchema :=
  {| db := {| schema := [("a", ["id"])];
              migrations_table := Some [mkRow 1 "one"] |};
     foreign_keys := true |}.

(** The connection after a full run of the four-migration registry. *)
Definition migrated : Conn TSchema :=
  conn_of (runMigrations real_registry fresh).

End Toy.

(** Closes a goal saying that some literal lines hold no line feed. *)
Ltac no_line_feed :=
  repeat constructor;
  let H := fresh "H" in
  intros H; vm_compute in H;
  repeat (destruct H as [H|H]; [discriminate H|]); exact H.

(* ================================================================== *)
(** * Part II.  The theory                                             *)
(* ================================================================== *)

Unset Implicit Arguments.

(** ** Trimming and splitting *)

Module JSFacts.

Lemma trimStart_nil_iff (s : jsstring) : trimStart s = [] <-> all_white s = true.
Proof.
  induction s as [|c s IH]; simpl; [tauto|].
  destruct (isWhiteSpace c); simpl; [exact IH|].
  split; discriminate.
Qed.

Lemma trimEnd_nil_iff (s : jsstring) : trimEnd s = [] <-> all_white s = true.
Proof.
  induction s as [|c s IH]; simpl; [tauto|].
  destruct (trimEnd s) eqn:E.
  - destruct (isWhiteSpace c); simpl.
    + tauto.
    + split; discriminate.
  - split; [discriminate|].
    intros H. apply andb_true_iff in H. destruct H as [_ H].
    apply IH in H. discriminate.
Qed.

Lemma trimStart_head (s : jsstring) :
  match trimStart s with
  | [] => True
  | c :: _ => isWhiteSpace c = false
  end.
Proof.
  induction s as [|c s IH]; simpl; [exact I|].
  destruct (isWhiteSpace c) eqn:E; [exact IH | exact E].
Qed.

Lemma trimStart_fixed (c : ascii) (s : jsstring) :
  isWhiteSpace c = false -> trimStart (c :: s) = c :: s.
Proof. intros H. simpl. now rewrite H. Qed.

Lemma trimStart_idem (s : jsstring) : trimStart (trimStart s) = trimStart s.
Proof.
  pose proof (trimStart_head s) as H.
  destruct (trimStart s) as [|c t]; [reflexivity|].
  now apply trimStart_fixed.
Qed.

Lemma trimEnd_cons_black (c : ascii) (s : jsstring) :
  isWhiteSpace c = false -> exists t, trimEnd (c :: s) = c :: t.
Proof.
  intros H. simpl. destruct (trimEnd s) as [|x t].
  - rewrite H. now exists [].
  - now exists (x :: t).
Qed.

Lemma trimEnd_idem (s : jsstring) : trimEnd (trimEnd s) = trimEnd s.
Proof.
  induction s as [|c s IH]; simpl; [reflexivity|].
  destruct (trimEnd s) as [|x t] eqn:E.
  - destruct (isWhiteSpace c) eqn:W; simpl; [reflexivity|].
    now rewrite W.
  - change (trimEnd (c :: x :: t)) with
      (match trimEnd (x :: t) with
       | [] => if isWhiteSpace c then [] else [c]
       | u => c :: u
       end).
    now rewrite IH.
Qed.

Lemma trim_commute (s : jsstring) : trimStart (trimEnd s) = trimEnd (trimStart s).
Proof.
  induction s as [|c s IH]; [reflexivity|].
  destruct (isWhiteSpace c) eqn:W.
  - simpl. rewrite W. destruct (trimEnd s) as [|x t] eqn:E.
    + rewrite <- IH. reflexivity.
    + rewrite <- IH. simpl. now rewrite W.
  - rewrite (trimStart_fixed c s W).
    destruct (trimEnd_cons_black c s W) as [t Ht].
    rewrite Ht. now apply trimStart_fixed.
Qed.

Lemma trim_nil_iff (s : jsstring) : trim s = [] <-> all_white s = true.
Proof.
  unfold trim. rewrite trimEnd_nil_iff.
  rewrite <- (trimStart_nil_iff s).
  pose proof (trimStart_head s) as H.
  destruct (trimStart s) as [|c t]; simpl; [split; reflexivity|].
  rewrite H. simpl. split; discriminate.
Qed.

Lemma truthy_true_iff (s : jsstring) : truthy s = true <-> s <> [].
Proof. destruct s; simpl; split; congruence. Qed.

Lemma trim_idem (s : jsstring) : trim (trim s) = trim s.
Proof.
  unfold trim. now rewrite trim_commute, trimEnd_idem, trimStart_idem.
Qed.

Lemma trim_trimStart (s : jsstring) : trim (trimStart s) = trim s.
Proof. unfold trim. now rewrite trimStart_idem. Qed.

Lemma trim_trimEnd (s : jsstring) : trim (trimEnd s) = trim s.
Proof. unfold trim. now rewrite trim_commute, trimEnd_idem. Qed.

(** Appending to a string that has a visible character leaves its left
    trimming untouched. *)
Lemma trimStart_app (a b : jsstring) :
  trimStart a <> [] -> trimStart (a ++ b) = trimStart a ++ b.
Proof.
  induction a as [|c a IH]; simpl; [congruence|].
  destruct (isWhiteSpace c); [exact IH | reflexivity].
Qed.

Lemma trimEnd_app (a b : jsstring) :
  trimEnd b <> [] -> trimEnd (a ++ b) = a ++ trimEnd b.
Proof.
  intros Hb. induction a as [|c a IH]; simpl; [reflexivity|].
  rewrite IH. destruct (a ++ trimEnd b) eqn:E; [|reflexivity].
  apply app_eq_nil in E. tauto.
Qed.

Lemma trimEnd_app_white (a b : jsstring) :
  all_white b = true -> trimEnd (a ++ b) = trimEnd a.
Proof.
  intros Hb. induction a as [|c a IH]; simpl.
  - now apply trimEnd_nil_iff.
  - now rewrite IH.
Qed.

Lemma trimStart_incl (s : jsstring) (x : ascii) : In x (trimStart s) -> In x s.
Proof.
  induction s as [|c s IH]; simpl; [tauto|].
  destruct (isWhiteSpace c); simpl; tauto.
Qed.

Lemma trimEnd_incl (s : jsstring) (x : ascii) : In x (trimEnd s) -> In x s.
Proof.
  induction s as [|c s IH]; simpl; [tauto|].
  destruct (trimEnd s) as [|y t].
  - destruct (isWhiteSpace c); simpl; tauto.
  - simpl in *. tauto.
Qed.

(** Splitting at line feeds. *)

Lemma split_lines_not_nil (s : jsstring) : split_lines s <> [].
Proof.
  destruct s as [|c s]; simpl; [discriminate|].
  destruct (Ascii.eqb c LF); [discriminate|].
  destruct (split_lines s); discriminate.
Qed.

Lemma split_lines_one (a : jsstring) : ~ In LF a -> split_lines a = [a].
Proof.
  induction a as [|c a IH]; simpl; intros H; [reflexivity|].
  destruct (Ascii.eqb_spec c LF) as [->|_]; [tauto|].
  rewrite IH by tauto. reflexivity.
Qed.

Lemma split_lines_app (a b : jsstring) :
  ~ In LF a -> split_lines (a ++ LF :: b) = a :: split_lines b.
Proof.
  induction a as [|c a IH]; simpl; intros H.
  - reflexivity.
  - destruct (Ascii.eqb_spec c LF) as [->|_]; [tauto|].
    rewrite IH by tauto. reflexivity.
Qed.

Lemma split_lines_no_LF (s : jsstring) :
  Forall (fun l => ~ In LF l) (split_lines s).
Proof.
  induction s as [|c s IH]; simpl.
  - constructor; [tauto | constructor].
  - destruct (Ascii.eqb_spec c LF) as [->|Hc].
    + constructor; [tauto | exact IH].
    + pose proof (split_lines_not_nil s) as Hne.
      destruct (split_lines s) as [|l ls]; [congruence|].
      inversion IH; subst.
      constructor; [|assumption]. simpl. intros [E|E]; [congruence | tauto].
Qed.

End JSFacts.

Import JSFacts.

(** ** The statement splitter *)

Module SplitterFacts.

Lemma blank_false_iff (l : jsstring) : blank l = false <-> trim l <> [].
Proof.
  unfold blank. rewrite negb_false_iff. apply truthy_true_iff.
Qed.

Lemma blank_true_iff (l : jsstring) : blank l = true <-> all_white l = true.
Proof.
  unfold blank. rewrite negb_true_iff, <- trim_nil_iff.
  destruct (trim l); simpl; split; congruence.
Qed.

Lemma all_white_app (a b : jsstring) :
  all_white (a ++ b) = all_white a && all_white b.
Proof. apply forallb_app. Qed.

Lemma joined_cons (l : jsstring) (g : list jsstring) :
  joined (l :: g) = l ++ LF :: joined g.
Proof. unfold joined. simpl. now rewrite <- app_assoc. Qed.

Lemma joined_app (g h : list jsstring) : joined (g ++ h) = joined g ++ joined h.
Proof. unfold joined. now rewrite map_app, concat_app. Qed.

Lemma joined_snoc (g : list jsstring) (l : jsstring) :
  joined (g ++ [l]) = joined g ++ l ++ [LF].
Proof. rewrite joined_app, joined_cons. reflexivity. Qed.

(** A buffer holding a visible line is visible. *)
Lemma joined_visible (g : list jsstring) :
  g <> [] -> Forall (fun l => blank l = false) g -> blank (joined g) = false.
Proof.
  intros Hne Hg. destruct g as [|l g]; [congruence|].
  inversion Hg as [|? ? Hl _]; subst.
  destruct (blank (joined (l :: g))) eqn:E; [|reflexivity].
  apply blank_true_iff in E. rewrite joined_cons, all_white_app in E.
  apply andb_true_iff in E. destruct E as [E _].
  apply blank_true_iff in E. congruence.
Qed.

(** *** One line *)

Lemma parse_line_blank (st : PState) (line : jsstring) :
  blank line = true -> parse_line st line = st.
Proof. unfold blank, parse_line. intros ->. reflexivity. Qed.

(** A visible line joins the buffer, which is then pushed or kept. *)
Lemma parse_line_visible (st : PState) (line : jsstring) :
  blank line = false ->
  let current1 := currentStatement st ++ line ++ [LF] in
  (statements (parse_line st line) = statements st ++ [trim current1] /\
   currentStatement (parse_line st line) = [])
  \/
  (statements (parse_line st line) = statements st /\
   currentStatement (parse_line st line) = current1).
Proof.
  unfold blank, parse_line. intros ->. cbv zeta. cbn [negb].
  destruct (endsWith SEMI (trim line)); [|now right].
  destruct (startsWith CREATE_TRIGGER (toUpperCase (trim line)));
    destruct (inTrigger st);
    destruct (includes END_MARK (toUpperCase (trim line)));
    cbn [andb negb statements currentStatement]; auto.
Qed.

(** *** The lines of a run are grouped into statements *)

Lemma parse_lines_groups (lines : list jsstring) :
  forall (st : PState) (groups : list (list jsstring)) (open : list jsstring),
    statements st = map rendered groups ->
    currentStatement st = joined open ->
    exists groups' open',
      statements (parse_lines lines st) = map rendered (groups ++ groups') /\
      currentStatement (parse_lines lines st) = joined open' /\
      concat groups' ++ open' = open ++ filter visible lines /\
      Forall (fun g => g <> []) groups'.
Proof.
  induction lines as [|line lines IH]; intros st groups open Hs Hc.
  - exists [], open. simpl. rewrite !app_nil_r. auto.
  - simpl. unfold visible at 1. destruct (blank line) eqn:Hb; simpl.
    + rewrite parse_line_blank by assumption. now apply IH.
    + destruct (parse_line_visible st line Hb) as [[H1 H2]|[H1 H2]].
      * destruct (IH (parse_line st line) (groups ++ [open ++ [line]]) [])
          as (g' & o' & Hg1 & Hg2 & Hg3 & Hg4).
        { rewrite H1, Hs, Hc, map_app. simpl. unfold rendered.
          now rewrite joined_snoc. }
        { now rewrite H2. }
        exists ((open ++ [line]) :: g'), o'.
        repeat split.
        -- rewrite Hg1, <- app_assoc. reflexivity.
        -- exact Hg2.
        -- simpl. rewrite <- !app_assoc. simpl. f_equal. f_equal. exact Hg3.
        -- constructor; [|exact Hg4]. intros E. now apply app_eq_nil in E.
      * destruct (IH (parse_line st line) groups (open ++ [line]))
          as (g' & o' & Hg1 & Hg2 & Hg3 & Hg4).
        { now rewrite H1. }
        { now rewrite H2, Hc, joined_snoc. }
        exists g', o'. repeat split; try assumption.
        rewrite Hg3, <- app_assoc. reflexivity.
Qed.

Lemma parseSQL_groups (sql : jsstring) :
  exists groups,
    Forall (fun g => g <> []) groups /\
    concat groups = filter visible (split_lines sql) /\
    parseSQL sql = map rendered groups.
Proof.
  destruct (parse_lines_groups (split_lines sql) initial [] [] eq_refl eq_refl)
    as (g & o & H1 & H2 & H3 & H4).
  simpl in H1, H3.
  assert (Hvis : Forall (fun l => blank l = false) o).
  { apply Forall_forall. intros l Hl.
    assert (Hin : In l (filter visible (split_lines sql))).
    { rewrite <- H3. apply in_or_app. now right. }
    apply filter_In in Hin. destruct Hin as [_ Hv].
    unfold visible in Hv. now apply negb_true_iff. }
  unfold parseSQL, flush. rewrite H1, H2.
  destruct o as [|l o].
  - exists g. rewrite app_nil_r in H3. auto.
  - assert (Ht : truthy (trim (joined (l :: o))) = true).
    { apply truthy_true_iff. apply blank_false_iff.
      apply joined_visible; [discriminate | exact Hvis]. }
    rewrite Ht. exists (g ++ [l :: o]). repeat split.
    + apply Forall_app. split; [exact H4|]. constructor; [discriminate | constructor].
    + rewrite concat_app. simpl. now rewrite app_nil_r.
    + now rewrite map_app.
Qed.

(** *** The lines of a pushed statement *)

Lemma trimEnd_joined (g : list jsstring) :
  g <> [] ->
  Forall (fun l => blank l = false /\ ~ In LF l) g ->
  trimEnd (joined g) <> [] /\
  map trim (split_lines (trimEnd (joined g))) = map trim g.
Proof.
  induction g as [|l g IH]; [congruence|]; intros _ Hg.
  inversion Hg as [|? ? [Hl Hn] Hg']; subst.
  assert (Hle : trimEnd l <> []).
  { intros E. apply trimEnd_nil_iff, blank_true_iff in E. congruence. }
  rewrite joined_cons. destruct g as [|l' g].
  - change (joined []) with (@nil ascii).
    rewrite (trimEnd_app_white l [LF]) by reflexivity.
    split; [exact Hle|].
    rewrite split_lines_one.
    + simpl. now rewrite trim_trimEnd.
    + intros Hin. now apply trimEnd_incl in Hin.
  - destruct IH as [IH1 IH2]; [discriminate | exact Hg' |].
    assert (Hc : trimEnd (LF :: joined (l' :: g)) = LF :: trimEnd (joined (l' :: g))).
    { simpl. destruct (trimEnd (joined (l' :: g))); [congruence | reflexivity]. }
    rewrite trimEnd_app by (rewrite Hc; discriminate).
    rewrite Hc. split.
    + intros E. apply app_eq_nil in E. destruct E; discriminate.
    + rewrite split_lines_app by exact Hn.
      simpl map at 1. rewrite IH2. reflexivity.
Qed.

Lemma rendered_lines (g : list jsstring) :
  g <> [] ->
  Forall (fun l => blank l = false /\ ~ In LF l) g ->
  map trim (split_lines (rendered g)) = map trim g.
Proof.
  intros Hne Hg. destruct g as [|l g]; [congruence|].
  inversion Hg as [|? ? [Hl Hn] Hg']; subst.
  assert (Hs : trimStart l <> []).
  { intros E. apply trimStart_nil_iff, blank_true_iff in E. congruence. }
  unfold rendered, trim at 2.
  rewrite joined_cons, trimStart_app by exact Hs.
  rewrite <- joined_cons.
  destruct (trimEnd_joined (trimStart l :: g)) as [_ H]; [discriminate| |].
  - constructor; [|exact Hg']. split.
    + apply blank_false_iff. rewrite trim_trimStart. now apply blank_false_iff.
    + intros Hin. now apply trimStart_incl in Hin.
  - rewrite H. simpl. now rewrite trim_trimStart.
Qed.

End SplitterFacts.

Import SplitterFacts.

(** *** Inside a trigger *)

Module TriggerFacts.

Lemma endsWith_SEMI_visible (s : jsstring) : endsWith SEMI s = true -> s <> [].
Proof. intros H E. subst s. discriminate. Qed.

Lemma closes_visible (line : jsstring) : closes line = true -> blank line = false.
Proof.
  unfold closes. intros H. apply andb_true_iff in H. destruct H as [H _].
  apply blank_false_iff. now apply endsWith_SEMI_visible.
Qed.

Lemma opens_visible (line : jsstring) : opens line = true -> blank line = false.
Proof.
  unfold opens. intros H. apply blank_false_iff. intros E.
  rewrite E in H. discriminate.
Qed.

(** With the flag set, a closing line pushes the buffer and clears the flag. *)
Lemma parse_line_closes (st : PState) (line : jsstring) :
  inTrigger st = true ->
  closes line = true ->
  parse_line st line =
    mkPState (statements st ++ [trim (currentStatement st ++ line ++ [LF])])
             [] false.
Proof.
  intros Hf Hc. pose proof (closes_visible line Hc) as Hb.
  unfold closes in Hc. apply andb_true_iff in Hc. destruct Hc as [He Hi].
  unfold blank in Hb. unfold parse_line. rewrite Hb, He, Hi, Hf. cbv zeta.
  destruct (startsWith CREATE_TRIGGER (toUpperCase (trim line))); reflexivity.
Qed.

(** With the flag set, any other visible line only joins the buffer. *)
Lemma parse_line_inside (st : PState) (line : jsstring) :
  inTrigger st = true ->
  closes line = false ->
  blank line = false ->
  parse_line st line =
    mkPState (statements st) (currentStatement st ++ line ++ [LF]) true.
Proof.
  intros Hf Hc Hb. unfold closes in Hc. unfold blank in Hb.
  unfold parse_line. rewrite Hb, Hf. cbv zeta.
  destruct (startsWith CREATE_TRIGGER (toUpperCase (trim line)));
    destruct (endsWith SEMI (trim line));
    destruct (includes END_MARK (toUpperCase (trim line)));
    try discriminate; reflexivity.
Qed.

(** A line that opens a trigger and does not close it sets the flag and
    joins the buffer. *)
Lemma parse_line_opens (st : PState) (line : jsstring) :
  opens line = true ->
  closes line = false ->
  parse_line st line =
    mkPState (statements st) (currentStatement st ++ line ++ [LF]) true.
Proof.
  intros Ho Hc. pose proof (opens_visible line Ho) as Hb.
  unfold closes in Hc. unfold blank in Hb. unfold opens in Ho.
  unfold parse_line. rewrite Hb, Ho. cbv zeta.
  destruct (endsWith SEMI (trim line));
    destruct (includes END_MARK (toUpperCase (trim line)));
    try discriminate; reflexivity.
Qed.

Lemma parse_lines_app (xs ys : list jsstring) (st : PState) :
  parse_lines (xs ++ ys) st = parse_lines ys (parse_lines xs st).
Proof. apply fold_left_app. Qed.

Lemma split_lines_joined (lines : list jsstring) :
  Forall (fun l => ~ In LF l) lines ->
  split_lines (joined lines) = lines ++ [[]].
Proof.
  induction 1 as [|l ls Hl _ IH]; [reflexivity|].
  rewrite joined_cons, split_lines_app by exact Hl.
  now rewrite IH.
Qed.

(** With the flag set, lines that do not close push nothing. *)
Lemma parse_lines_inside (mid : list jsstring) : forall st : PState,
  inTrigger st = true ->
  Forall (fun l => closes l = false) mid ->
  parse_lines mid st =
    mkPState (statements st)
             (currentStatement st ++ joined (filter visible mid)) true.
Proof.
  induction mid as [|l mid IH]; intros st Hf Hmid.
  - simpl. rewrite app_nil_r. destruct st; simpl in *. now subst.
  - inversion Hmid as [|? ? Hl Hmid']; subst.
    simpl. unfold visible at 1. destruct (blank l) eqn:Hb; simpl.
    + rewrite parse_line_blank by exact Hb. now apply IH.
    + rewrite (parse_line_inside st l Hf Hl Hb).
      change (fold_left parse_line mid ?s) with (parse_lines mid s).
      rewrite IH by (reflexivity || assumption). simpl.
      rewrite joined_cons, <- !app_assoc. reflexivity.
Qed.

End TriggerFacts.

Import TriggerFacts.

(** C9.  Closing-marker detection is by substring.  While the in-trigger flag
    is set, lines that do not both end with [;] (after trimming) and contain
    [END;] in upper case push nothing and leave the flag set: the visible
    ones join the buffer, the blank ones are skipped.  The first line after
    them that ends with [;] and whose upper-case form contains [END;]
    anywhere clears the flag and pushes the accumulated buffer, that line
    included, as one statement. *)
Theorem closing_marker_by_substring
  (st : PState) (mid : list jsstring) (closing : jsstring) :
  inTrigger st = true ->
  Forall (fun l => closes l = false) mid ->
  closes closing = true ->
  parse_lines mid st =
    mkPState (statements st)
             (currentStatement st ++ joined (filter visible mid)) true /\
  parse_lines (mid ++ [closing]) st =
    mkPState
      (statements st ++
         [trim (currentStatement st ++ joined (filter visible mid) ++ closing ++ [LF])])
      [] false.
Proof.
  intros Hf Hmid Hc.
  pose proof (parse_lines_inside mid st Hf Hmid) as Hin.
  split; [exact Hin|].
  rewrite parse_lines_app, Hin.
  change (parse_lines [closing] ?s) with (parse_line s closing).
  rewrite parse_line_closes by (reflexivity || assumption).
  cbn [statements currentStatement]. now rewrite <- app_assoc.
Qed.

Lemma closing_marker_by_substring_witness :
  parse_lines [lit "  UPDATE t SET touched = 1;"; lit ""] open_trigger =
    mkPState
      (statements open_trigger)
      (currentStatement open_trigger ++
       joined (filter visible [lit "  UPDATE t SET touched = 1;"; lit ""]))
      true /\
  parse_lines
    ([lit "  UPDATE t SET touched = 1;"; lit ""] ++
     [lit "  UPDATE t SET flag = CASE WHEN NEW.n > 0 THEN 1 ELSE 0 END;"])
    open_trigger =
  mkPState
    (statements open_trigger ++
       [trim (currentStatement open_trigger ++
              joined (filter visible [lit "  UPDATE t SET touched = 1;"; lit ""]) ++
              lit "  UPDATE t SET flag = CASE WHEN NEW.n > 0 THEN 1 ELSE 0 END;" ++ [LF])])
    [] false.
Proof.
  apply (closing_marker_by_substring open_trigger
           [lit "  UPDATE t SET touched = 1;"; lit ""]
           (lit "  UPDATE t SET flag = CASE WHEN NEW.n > 0 THEN 1 ELSE 0 END;")).
  - reflexivity.
  - repeat constructor.
  - vm_compute. reflexivity.
Defined.

(** X12.  A trigger none of whose lines before the closing one both ends
    with [;] and contains [END;] comes out as one statement, whatever
    terminators its body lines end with. *)
Lemma trigger_without_inner_end (header : jsstring) (body : list jsstring) (closing : jsstring) :
  Forall (fun l => ~ In LF l) (header :: body ++ [closing]) ->
  opens header = true ->
  closes header = false ->
  Forall (fun l => closes l = false) body ->
  closes closing = true ->
  parseSQL (joined (header :: body ++ [closing])) =
    [rendered (header :: filter visible body ++ [closing])].
Proof.
  intros Hn Ho Hh Hb Hc.
  unfold parseSQL. rewrite split_lines_joined by exact Hn.
  change ((header :: body ++ [closing]) ++ [[]])
    with ([header] ++ ((body ++ [closing]) ++ [[]])).
  rewrite (parse_lines_app [header]), (parse_lines_app (body ++ [closing])).
  change (parse_lines [header] initial) with (parse_line initial header).
  rewrite (parse_line_opens initial header Ho Hh).
  rewrite (parse_lines_app body).
  rewrite (parse_lines_inside body) by (reflexivity || assumption).
  change (parse_lines [closing] ?s) with (parse_line s closing).
  rewrite parse_line_closes by (reflexivity || assumption).
  change (parse_lines [[]] ?s) with (parse_line s []).
  rewrite parse_line_blank by reflexivity.
  unfold flush. cbn [currentStatement statements initial app].
  change (truthy (trim [])) with false. cbv iota.
  unfold rendered. rewrite joined_cons, joined_app, joined_cons.
  cbn [joined map concat app]. rewrite <- !app_assoc. reflexivity.
Qed.

(** C4 (the code departs from it).  The trigger [trigger_with_case], whose
    body has a [CASE ... END;] line before the closing [END;], comes out as
    three statements: the trigger cut after the [CASE] line, the next body
    statement on its own, and a lone [END;]. *)
Theorem trigger_with_case_is_split :
  parseSQL trigger_with_case =
    [ rendered (map lit
        [ "CREATE TRIGGER trg AFTER UPDATE ON t";
          "BEGIN";
          "  UPDATE t SET flag = CASE WHEN NEW.n > 0 THEN 1 ELSE 0 END;" ]%string);
      lit "UPDATE t SET touched = 1;";
      lit "END;" ] /\
  length (parseSQL trigger_with_case) = 3.
Proof. split; vm_compute; reflexivity. Qed.

(** C8.  On ["CREATE TABLE t (id INT);\nCREATE TABLE u (id INT);\n"] the
    splitter returns exactly two statements, each ending with [;]. *)
Theorem two_tables_two_statements :
  two_tables =
    lit "CREATE TABLE t (id INT);" ++ [LF] ++
    lit "CREATE TABLE u (id INT);" ++ [LF] /\
  parseSQL two_tables =
    [lit "CREATE TABLE t (id INT);"; lit "CREATE TABLE u (id INT);"] /\
  length (parseSQL two_tables) = 2 /\
  Forall (fun statement => endsWith SEMI statement = true) (parseSQL two_tables).
Proof.
  split; [reflexivity|].
  assert (H : parseSQL two_tables =
                [lit "CREATE TABLE t (id INT);"; lit "CREATE TABLE u (id INT);"])
    by (vm_compute; reflexivity).
  rewrite H. split; [reflexivity|]. split; [reflexivity|].
  repeat constructor.
Qed.

(** C10.  [parseSQL] is total; every statement it returns is visible (not
    empty after trimming); the visible lines of the input are cut, in
    order, into consecutive non-empty groups and the statements are these
    groups, each joined by line feeds and trimmed as a whole; so, line by
    line and up to the trimming, the lines of the statements are the visible
    input lines, each once and in input order, and no line of a statement is
    blank. *)
Theorem parseSQL_partitions_visible_lines (sql : jsstring) :
  Forall (fun statement => truthy (trim statement) = true) (parseSQL sql) /\
  (exists groups : list (list jsstring),
      Forall (fun g => g <> []) groups /\
      concat groups = filter visible (split_lines sql) /\
      parseSQL sql = map rendered groups) /\
  concat (map (fun statement => map trim (split_lines statement)) (parseSQL sql)) =
    map trim (filter visible (split_lines sql)) /\
  Forall (fun statement =>
            Forall (fun l => blank l = false) (split_lines statement))
         (parseSQL sql).
Proof.
  destruct (parseSQL_groups sql) as (groups & Hne & Hcat & Hp).
  assert (Hlines : Forall (Forall (fun l => blank l = false /\ ~ In LF l)) groups).
  { apply Forall_forall. intros g Hg. apply Forall_forall. intros l Hl.
    assert (Hin : In l (filter visible (split_lines sql))).
    { rewrite <- Hcat. apply in_concat. eauto. }
    apply filter_In in Hin. destruct Hin as [Hs Hv]. split.
    - unfold visible in Hv. now apply negb_true_iff.
    - pose proof (split_lines_no_LF sql) as Hno.
      rewrite Forall_forall in Hno. now apply Hno. }
  assert (Heach : forall g, In g groups ->
                    map trim (split_lines (rendered g)) = map trim g).
  { intros g Hg. rewrite Forall_forall in Hne, Hlines.
    apply rendered_lines; auto. }
  split; [|split; [|split]].
  - rewrite Hp. apply Forall_forall. intros s Hs.
    apply in_map_iff in Hs. destruct Hs as (g & <- & Hg).
    unfold rendered. rewrite trim_idem.
    apply truthy_true_iff, blank_false_iff, joined_visible.
    + rewrite Forall_forall in Hne. now apply Hne.
    + rewrite Forall_forall in Hlines. specialize (Hlines g Hg).
      eapply Forall_impl; [|exact Hlines]. simpl. tauto.
  - exists groups. auto.
  - rewrite Hp, <- Hcat, map_map, concat_map.
    f_equal. apply map_ext_in. exact Heach.
  - rewrite Hp. apply Forall_forall. intros s Hs.
    apply in_map_iff in Hs. destruct Hs as (g & <- & Hg).
    apply Forall_forall. intros l Hl.
    apply blank_false_iff.
    assert (Hin : In (trim l) (map trim (split_lines (rendered g))))
      by now apply in_map.
    rewrite (Heach g Hg) in Hin. apply in_map_iff in Hin.
    destruct Hin as (l' & Hl' & Hin').
    rewrite <- Hl'.
    rewrite Forall_forall in Hlines. specialize (Hlines g Hg).
    rewrite Forall_forall in Hlines.
    apply blank_false_iff. now apply (Hlines l').
Qed.

(** ** The handle and the runner *)

Section EngineFacts.

Variable Schema : Type.

Implicit Types (c : Conn Schema) (d : DB Schema) (m : Migration Schema).
Implicit Types (reg done rest : list (Migration Schema)).

Local Open Scope Z_scope.

Lemma conn_eta c : {| db := db c; foreign_keys := foreign_keys c |} = c.
Proof. now destruct c. Qed.

Lemma prepared_spec c :
  prepared c =
    {| db := snd (create_migrations_table (db c)); foreign_keys := true |}.
Proof. destruct c as [[s [rows|]] fk]; reflexivity. Qed.

Lemma recorded_prepared c : recorded (db (prepared c)) = recorded (db c).
Proof. destruct c as [[s [rows|]] fk]; reflexivity. Qed.

Lemma schema_prepared c : schema (db (prepared c)) = schema (db c).
Proof. destruct c as [[s [rows|]] fk]; reflexivity. Qed.

Lemma or_zero_some (z : Z) : or_zero (Some z) = z.
Proof. unfold or_zero. destruct (Z.eqb_spec z 0); congruence. Qed.

(** [MAX] over at least one row is the greatest version. *)
Lemma sql_max_spec (vs : list Z) :
  vs <> [] ->
  exists mx, sql_max vs = Some mx /\ In mx vs /\ Forall (fun u => u <= mx) vs.
Proof.
  induction vs as [|v vs IH]; [congruence|]. intros _.
  destruct vs as [|w vs].
  - exists v. simpl. repeat split; auto. constructor; [lia | constructor].
  - destruct IH as (mx & Hmx & Hin & Hall); [discriminate|].
    change (sql_max (v :: w :: vs)) with
      (match sql_max (w :: vs) with
       | None => Some v
       | Some x => Some (Z.max v x)
       end).
    rewrite Hmx. exists (Z.max v mx). split; [reflexivity|]. split.
    + destruct (Z.max_spec v mx) as [[_ ->]|[_ ->]]; [now right | now left].
    + constructor; [lia|].
      eapply Forall_impl; [|exact Hall]. simpl. intros; lia.
Qed.

Lemma getCurrentVersion_spec c :
  getCurrentVersion c = (Returned (currentVersion c), c, []).
Proof. destruct c as [[s [rows|]] fk]; reflexivity. Qed.

Lemma currentVersion_recorded c :
  currentVersion c = or_zero (sql_max (recorded (db c))).
Proof. destruct c as [[s [rows|]] fk]; reflexivity. Qed.

Lemma currentVersion_prepared c : currentVersion (prepared c) = currentVersion c.
Proof. now rewrite !currentVersion_recorded, recorded_prepared. Qed.

Lemma run_pending_nil c : run_pending [] c = (Returned tt, c, []).
Proof. reflexivity. Qed.

(** The run is the loop over the pending descriptors, started on the
    prepared connection. *)
Lemma runMigrations_unfold reg c :
  runMigrations reg c = run_pending (pending reg (currentVersion c)) (prepared c).
Proof.
  unfold runMigrations.
  unfold bind at 1. unfold pragma_foreign_keys_on at 1.
  unfold bind at 1. unfold initMigrationsTable, on_db at 1.
  cbn [db foreign_keys].
  destruct (create_migrations_table (db c)) as [r d0] eqn:Hc.
  assert (Hr : r = Returned tt).
  { unfold create_migrations_table in Hc.
    destruct (migrations_table (db c)); now inversion Hc. }
  subst r.
  assert (Hp : prepared c = {| db := d0; foreign_keys := true |}).
  { rewrite prepared_spec, Hc. reflexivity. }
  rewrite <- Hp. unfold bind at 1.
  rewrite getCurrentVersion_spec, currentVersion_prepared.
  destruct (pending reg (currentVersion c)) as [|m p] eqn:Hpend.
  - reflexivity.
  - destruct (run_pending (m :: p) (prepared c)) as [[r c2] t2]. reflexivity.
Qed.

(** One iteration: the three ways a transaction ends. *)
Lemma run_one_spec m c :
  run_one m c =
    match up m (db c) with
    | (Thrown e, _) =>
        (Thrown e, c, [EvBegin; EvUp (version m); EvRollback])
    | (Returned _, d1) =>
        match insert_migration (version m) (name m) d1 with
        | (Thrown e, _) =>
            (Thrown e, c,
             [EvBegin; EvUp (version m); EvInsert (version m) (name m); EvRollback])
        | (Returned _, d2) =>
            (Returned tt, {| db := d2; foreign_keys := foreign_keys c |},
             [EvBegin; EvUp (version m); EvInsert (version m) (name m); EvCommit])
        end
    end.
Proof.
  unfold run_one, try_catch, transaction, migration_body, bind, emit, on_db, throw.
  cbn [db foreign_keys].
  destruct (up m (db c)) as [[[]|e] d1]; cbn [db foreign_keys app].
  - destruct (insert_migration (version m) (name m) d1) as [[[]|e] d2];
      cbn [db foreign_keys app]; rewrite ?conn_eta; reflexivity.
  - rewrite conn_eta. reflexivity.
Qed.

Lemma attempted_app (t u : list Event) :
  attempted (t ++ u) = attempted t ++ attempted u.
Proof.
  induction t as [|ev t IH]; [reflexivity|].
  destruct ev; simpl; now rewrite IH.
Qed.

Lemma run_pending_cons m rest c :
  run_pending (m :: rest) c =
    match run_one m c with
    | (Returned _, c1, t1) =>
        match run_pending rest c1 with (r, c2, t2) => (r, c2, t1 ++ t2) end
    | (Thrown e, c1, t1) => (Thrown e, c1, t1)
    end.
Proof. reflexivity. Qed.

Lemma run_pending_app done rest c c1 t1 :
  run_pending done c = (Returned tt, c1, t1) ->
  run_pending (done ++ rest) c =
    match run_pending rest c1 with (r, c2, t2) => (r, c2, t1 ++ t2) end.
Proof.
  revert c t1. induction done as [|m done IH]; intros c t1 H.
  - rewrite run_pending_nil in H. inversion H; subst. simpl.
    now destruct (run_pending rest c1) as [[r c2] t2].
  - simpl app. rewrite run_pending_cons in *.
    destruct (run_one m c) as [[[[]|e] c0] t0]; [|discriminate].
    destruct (run_pending done c0) as [[r c2] t2] eqn:Hd.
    inversion H; subst.
    rewrite (IH c0 t2 Hd).
    destruct (run_pending rest c1) as [[r' c3] t3].
    now rewrite app_assoc.
Qed.

(** A loop that returns has called the action of each descriptor once, in
    order. *)
Lemma run_pending_returned_attempted rest : forall c c1 t1,
  run_pending rest c = (Returned tt, c1, t1) ->
  attempted t1 = versions rest.
Proof.
  induction rest as [|m rest IH]; intros c c1 t1 H.
  - rewrite run_pending_nil in H. now inversion H.
  - rewrite run_pending_cons, run_one_spec in H.
    destruct (up m (db c)) as [[[]|e] d1]; [|discriminate].
    destruct (insert_migration (version m) (name m) d1) as [[[]|e] d2];
      [|discriminate].
    destruct (run_pending rest _) as [[r c2] t2] eqn:Hr.
    inversion H; subst. simpl. f_equal. now apply (IH _ _ _ Hr).
Qed.

Lemma StronglySorted_map_filter (p : Migration Schema -> bool) reg :
  StronglySorted Z.le (versions reg) ->
  StronglySorted Z.le (versions (filter p reg)).
Proof.
  unfold versions. induction reg as [|m reg IH]; simpl; intros H; [constructor|].
  inversion H as [|? ? Hs Hall]; subst.
  destruct (p m); [|now apply IH].
  simpl. constructor; [now apply IH|].
  rewrite Forall_forall in *. intros v Hv.
  apply Hall. apply in_map_iff in Hv. destruct Hv as (x & <- & Hx).
  apply in_map. apply filter_In in Hx. tauto.
Qed.

Lemma StronglySorted_app_le (a b : list Z) :
  StronglySorted Z.le (a ++ b) ->
  forall x y, In x a -> In y b -> x <= y.
Proof.
  induction a as [|z a IH]; simpl; intros H x y Hx Hy; [tauto|].
  inversion H as [|? ? Hs Hall]; subst.
  destruct Hx as [->|Hx].
  - rewrite Forall_forall in Hall. apply Hall. apply in_or_app. now right.
  - now apply (IH Hs).
Qed.

Lemma Sorted_le_strong (l : list Z) : Sorted Z.le l -> StronglySorted Z.le l.
Proof.
  apply Sorted_StronglySorted. intros x y z. apply Z.le_trans.
Qed.

(** C1.  When, in a run, the turn of a pending migration [m] of version [v]
    comes (the pending descriptors [done] before it went through, leaving
    connection [c1]) and its action throws [e], or its action returns and
    the bookkeeping insert throws [e], then the run ends throwing [e]; the
    connection is [c1] again, the one the transaction of [m] started from, so
    nothing the action wrote and no row for this attempt is left; the
    transaction was rolled back; the actions called in the run are those of
    [done] and of [m], none of [rest]; and in a registry sorted by version no
    called action has a version above [v]. *)
Theorem failed_migration_rolls_back_and_aborts
  reg c done m rest c1 (t1 : list Event) (e : Error) :
  pending reg (currentVersion (prepared c)) = done ++ m :: rest ->
  run_pending done (prepared c) = (Returned tt, c1, t1) ->
  body_raises m (db c1) e ->
  exists t',
    runMigrations reg c = (Thrown e, c1, t') /\
    (exists mid,
        t' = t1 ++ [EvBegin; EvUp (version m)] ++ mid ++ [EvRollback] /\
        (mid = [] \/ mid = [EvInsert (version m) (name m)])) /\
    attempted t' = versions (done ++ [m]) /\
    (Sorted Z.le (versions reg) ->
     Forall (fun v => v <= version m) (attempted t')).
Proof.
  intros Hpend Hdone Hfail.
  rewrite currentVersion_prepared in Hpend.
  assert (Hone : exists mid,
             run_one m c1 =
               (Thrown e, c1, [EvBegin; EvUp (version m)] ++ mid ++ [EvRollback]) /\
             (mid = [] \/ mid = [EvInsert (version m) (name m)])).
  { rewrite run_one_spec. destruct Hfail as [d' Hup | d1 d2 Hup Hins].
    - rewrite Hup. exists []. auto.
    - rewrite Hup, Hins. exists [EvInsert (version m) (name m)]. auto. }
  destruct Hone as (mid & Hone & Hmid).
  exists (t1 ++ [EvBegin; EvUp (version m)] ++ mid ++ [EvRollback]).
  assert (Hatt : attempted (t1 ++ [EvBegin; EvUp (version m)] ++ mid ++ [EvRollback])
                 = versions (done ++ [m])).
  { rewrite attempted_app, (run_pending_returned_attempted _ _ _ _ Hdone).
    unfold versions. rewrite map_app. f_equal.
    destruct Hmid as [-> | ->]; reflexivity. }
  split; [|split; [|split]].
  - rewrite runMigrations_unfold, Hpend.
    rewrite (run_pending_app _ (m :: rest) _ _ _ Hdone).
    rewrite run_pending_cons, Hone. reflexivity.
  - exists mid. auto.
  - exact Hatt.
  - intros Hsorted. rewrite Hatt.
    apply Sorted_le_strong in Hsorted.
    apply (StronglySorted_map_filter
             (fun x => currentVersion c <? version x)) in Hsorted.
    fold (pending reg (currentVersion c)) in Hsorted.
    rewrite Hpend in Hsorted. unfold versions in *.
    rewrite map_app in *. simpl in Hsorted.
    apply Forall_forall. intros v Hv. apply in_app_or in Hv.
    destruct Hv as [Hv | [<- | []]]; [|lia].
    apply (StronglySorted_app_le _ _ Hsorted v (version m) Hv). now left.
Qed.

(** C6.  [getCurrentVersion] never throws and touches nothing; it returns
    zero when the bookkeeping table cannot be read and when it has no row,
    and the greatest recorded version otherwise. *)
Theorem getCurrentVersion_max_or_zero c :
  exists v,
    getCurrentVersion c = (Returned v, c, []) /\
    match migrations_table (db c) with
    | None => v = 0
    | Some [] => v = 0
    | Some rows =>
        In v (map row_version rows) /\
        Forall (fun u => u <= v) (map row_version rows)
    end.
Proof.
  exists (currentVersion c). split; [apply getCurrentVersion_spec|].
  rewrite currentVersion_recorded. unfold recorded.
  destruct (migrations_table (db c)) as [rows|]; [|reflexivity].
  destruct rows as [|r rows]; [reflexivity|].
  destruct (sql_max_spec (map row_version (r :: rows))) as (mx & Hmx & Hin & Hall);
    [discriminate|].
  rewrite Hmx, or_zero_some. auto.
Qed.

(** With nothing pending the run is over after the pragma and the
    [CREATE TABLE IF NOT EXISTS]. *)
Lemma run_without_pending reg c :
  Forall (fun m => version m <= currentVersion c) reg ->
  runMigrations reg c = (Returned tt, prepared c, []).
Proof.
  intros Hall.
  assert (Hp : pending reg (currentVersion c) = []).
  { unfold pending. induction Hall as [|m reg Hm _ IH]; [reflexivity|].
    simpl. destruct (Z.ltb_spec (currentVersion c) (version m)); [lia | exact IH]. }
  now rewrite runMigrations_unfold, Hp.
Qed.

(** C7.  When no registry version exceeds the current version, the run
    returns at once: its trace is empty (no transaction begun, no action
    called, no insert attempted), the rows of the bookkeeping table and the
    schema are as before, and the connection is the prepared one. *)
Theorem no_pending_no_work reg c :
  Forall (fun m => version m <= currentVersion c) reg ->
  runMigrations reg c = (Returned tt, prepared c, []) /\
  filter is_begin (trace_of (runMigrations reg c)) = [] /\
  filter is_insert (trace_of (runMigrations reg c)) = [] /\
  attempted (trace_of (runMigrations reg c)) = [] /\
  recorded (db (conn_of (runMigrations reg c))) = recorded (db c) /\
  schema (db (conn_of (runMigrations reg c))) = schema (db c) /\
  (forall rows, migrations_table (db c) = Some rows ->
                db (conn_of (runMigrations reg c)) = db c).
Proof.
  intros Hall.
  rewrite (run_without_pending reg c Hall). unfold trace_of, conn_of. simpl.
  repeat split; auto using recorded_prepared, schema_prepared.
  intros rows Hrows. rewrite prepared_spec. unfold create_migrations_table.
  rewrite Hrows. reflexivity.
Qed.

(** *** What the loop records *)

Lemma insert_migration_returned (v : Z) (n : string) d d2 :
  insert_migration v n d = (Returned tt, d2) ->
  recorded d2 = recorded d ++ [v] /\ schema d2 = schema d.
Proof.
  unfold insert_migration, recorded.
  destruct (migrations_table d) as [rows|]; [|discriminate].
  destruct (existsb (Z.eqb v) (map row_version rows)); [discriminate|].
  intros H. inversion H; subst. simpl. now rewrite map_app.
Qed.

Lemma recorded_frame m d d1 :
  frames_bookkeeping m -> up m d = (Returned tt, d1) -> recorded d1 = recorded d.
Proof. intros Hf Hup. unfold recorded. now rewrite (Hf d d1 Hup). Qed.

Lemma conn_of_bind_trace {A} (x : Outcome A * Conn Schema * list Event) (t1 : list Event) :
  conn_of (match x with (r, c2, t2) => (r, c2, t1 ++ t2) end) = conn_of x.
Proof. now destruct x as [[r c2] t2]. Qed.

(** Returned or thrown, the loop has recorded a prefix of its list on top of
    what was recorded. *)
Lemma run_pending_recorded rest : forall c,
  Forall (@frames_bookkeeping Schema) rest ->
  exists done' rest',
    rest = done' ++ rest' /\
    recorded (db (conn_of (run_pending rest c))) =
      recorded (db c) ++ versions done'.
Proof.
  induction rest as [|m rest IH]; intros c Hfr.
  - exists [], []. simpl. now rewrite app_nil_r.
  - inversion Hfr as [|? ? Hm Hrest]; subst.
    rewrite run_pending_cons, run_one_spec.
    destruct (up m (db c)) as [[[]|e] d1] eqn:Hup.
    + destruct (insert_migration (version m) (name m) d1) as [[[]|e] d2] eqn:Hins.
      * rewrite conn_of_bind_trace.
        destruct (IH {| db := d2; foreign_keys := foreign_keys c |} Hrest)
          as (done' & rest' & -> & Hrec).
        exists (m :: done'), rest'. split; [reflexivity|].
        rewrite Hrec. cbn [db].
        destruct (insert_migration_returned _ _ _ _ Hins) as [-> _].
        rewrite (recorded_frame m _ _ Hm Hup).
        simpl. now rewrite <- app_assoc.
      * exists [], (m :: rest). simpl. now rewrite app_nil_r.
    + exists [], (m :: rest). simpl. now rewrite app_nil_r.
Qed.

Lemma run_pending_returned_recorded rest : forall c c1 (t1 : list Event),
  Forall (@frames_bookkeeping Schema) rest ->
  run_pending rest c = (Returned tt, c1, t1) ->
  recorded (db c1) = recorded (db c) ++ versions rest.
Proof.
  induction rest as [|m rest IH]; intros c c1 t1 Hfr H.
  - rewrite run_pending_nil in H. inversion H; subst. simpl. now rewrite app_nil_r.
  - inversion Hfr as [|? ? Hm Hrest]; subst.
    rewrite run_pending_cons, run_one_spec in H.
    destruct (up m (db c)) as [[[]|e] d1] eqn:Hup; [|discriminate].
    destruct (insert_migration (version m) (name m) d1) as [[[]|e] d2] eqn:Hins;
      [|discriminate].
    destruct (run_pending rest _) as [[r c2] t2] eqn:Hr.
    inversion H; subst.
    rewrite (IH _ _ _ Hrest Hr). cbn [db].
    destruct (insert_migration_returned _ _ _ _ Hins) as [-> _].
    rewrite (recorded_frame m _ _ Hm Hup).
    simpl. now rewrite <- app_assoc.
Qed.

Lemma filter_all {A} (f : A -> bool) (l : list A) :
  (forall x, In x l -> f x = true) -> filter f l = l.
Proof.
  induction l as [|a l IH]; simpl; intros H; [reflexivity|].
  rewrite (H a) by now left. f_equal. apply IH. intros x Hx. apply H. now right.
Qed.

Lemma filter_none {A} (f : A -> bool) (l : list A) :
  (forall x, In x l -> f x = false) -> filter f l = [].
Proof.
  induction l as [|a l IH]; simpl; intros H; [reflexivity|].
  rewrite (H a) by now left. apply IH. intros x Hx. apply H. now right.
Qed.

(** In a registry sorted by version the pending descriptors are a suffix. *)
Lemma pending_split reg (cv : Z) :
  StronglySorted Z.le (versions reg) ->
  reg = filter (fun m => version m <=? cv) reg ++ pending reg cv.
Proof.
  unfold versions, pending.
  induction reg as [|m reg IH]; simpl; intros H; [reflexivity|].
  inversion H as [|? ? Hs Hall]; subst.
  destruct (Z.leb_spec (version m) cv) as [Hle|Hgt].
  - destruct (Z.ltb_spec cv (version m)); [lia|].
    simpl. f_equal. now apply IH.
  - destruct (Z.ltb_spec cv (version m)); [|lia].
    assert (Hnone : filter (fun x => version x <=? cv) reg = []).
    { apply filter_none. intros x Hx.
      pose proof (proj1 (Forall_forall _ _) Hall (version x) (in_map _ _ _ Hx)).
      apply Z.leb_gt. lia. }
    assert (Hall' : filter (fun x => cv <? version x) reg = reg).
    { apply filter_all. intros x Hx.
      pose proof (proj1 (Forall_forall _ _) Hall (version x) (in_map _ _ _ Hx)).
      apply Z.ltb_lt. lia. }
    rewrite Hnone, Hall'. reflexivity.
Qed.

Lemma prefix_of_sorted (a b recorded_versions : list Z) :
  StronglySorted Z.le (a ++ b) ->
  (forall v, In v recorded_versions <-> In v a) ->
  prefix_closed_in (a ++ b) recorded_versions.
Proof.
  intros Hs Hrec. split.
  - intros v Hv. apply in_or_app. left. now apply Hrec.
  - intros u v Hu Hv Hlt Hin. apply Hrec. apply Hrec in Hin.
    apply in_app_or in Hu. destruct Hu as [Hu|Hu]; [exact Hu|].
    pose proof (StronglySorted_app_le a b Hs v u Hin Hu). lia.
Qed.

(** Under the invariant, the recorded versions are the registry versions up
    to the current one. *)
Lemma recorded_below_current reg (recorded_versions : list Z) :
  Forall (@positive_version Schema) reg ->
  prefix_closed_in (versions reg) recorded_versions ->
  forall v,
    In v recorded_versions <->
    In v (versions
            (filter (fun m => version m <=? or_zero (sql_max recorded_versions)) reg)).
Proof.
  intros Hpos [Hsub Hclosed] v.
  destruct recorded_versions as [|r0 rs] eqn:E.
  - simpl. split; [tauto|]. intros Hv.
    apply in_map_iff in Hv. destruct Hv as (m & _ & Hm).
    apply filter_In in Hm. destruct Hm as [Hm Hle].
    rewrite Forall_forall in Hpos. specialize (Hpos m Hm).
    unfold positive_version in Hpos. apply Z.leb_le in Hle. lia.
  - destruct (sql_max_spec (r0 :: rs)) as (mx & Hmx & Hin & Hall); [discriminate|].
    rewrite Hmx, or_zero_some. split.
    + intros Hv. pose proof (Hsub v Hv) as Hreg.
      apply in_map_iff in Hreg. destruct Hreg as (m & <- & Hm).
      apply in_map. apply filter_In. split; [exact Hm|].
      rewrite Forall_forall in Hall. apply Z.leb_le. now apply Hall.
    + intros Hv. apply in_map_iff in Hv. destruct Hv as (m & <- & Hm).
      apply filter_In in Hm. destruct Hm as [Hm Hle]. apply Z.leb_le in Hle.
      destruct (Z.eq_dec (version m) mx) as [->|Hne]; [exact Hin|].
      apply (Hclosed (version m) mx).
      * now apply in_map.
      * now apply Hsub.
      * lia.
      * exact Hin.
Qed.

Lemma prefix_closed_preserved reg c :
  StronglySorted Z.le (versions reg) ->
  Forall (@positive_version Schema) reg ->
  Forall (@frames_bookkeeping Schema) reg ->
  prefix_closed_in (versions reg) (recorded (db c)) ->
  prefix_closed_in (versions reg)
    (recorded (db (conn_of (runMigrations reg c)))).
Proof.
  intros Hsorted Hpos Hfr Hinv.
  rewrite runMigrations_unfold.
  set (cv := currentVersion c).
  assert (Hfrp : Forall (@frames_bookkeeping Schema) (pending reg cv)).
  { unfold pending. rewrite Forall_forall in *. intros m Hm.
    apply filter_In in Hm. now apply Hfr. }
  destruct (run_pending_recorded (pending reg cv) (prepared c) Hfrp)
    as (done' & rest' & Hsplit & Hrec).
  rewrite Hrec, recorded_prepared.
  pose proof (pending_split reg cv Hsorted) as Hreg.
  rewrite Hsplit in Hreg.
  set (low := filter (fun m => version m <=? cv) reg) in *.
  assert (Hvs : versions reg = (versions low ++ versions done') ++ versions rest').
  { rewrite Hreg at 1. unfold versions. now rewrite !map_app, app_assoc. }
  rewrite Hvs. apply prefix_of_sorted.
  - rewrite <- Hvs. exact Hsorted.
  - intros v. rewrite !in_app_iff.
    pose proof (recorded_below_current reg (recorded (db c)) Hpos Hinv v) as Hlow.
    rewrite <- currentVersion_recorded in Hlow. fold cv in Hlow. fold low in Hlow.
    tauto.
Qed.

(** C2.  Take a registry sorted ascending by version, whose versions are
    positive integers and whose actions leave the bookkeeping table to the
    runner.  Then the recorded versions being a prefix-closed subset of the
    registry versions (every recorded version is a registry version, and no
    registry version is recorded while a lower one is missing) is kept by
    every run, returned or thrown; and it holds of every connection reached
    through any number of runs from a database that records nothing. *)
Theorem recorded_versions_stay_prefix_closed reg :
  Sorted Z.le (versions reg) ->
  Forall (@positive_version Schema) reg ->
  Forall (@frames_bookkeeping Schema) reg ->
  (forall c,
      prefix_closed_in (versions reg) (recorded (db c)) ->
      prefix_closed_in (versions reg)
        (recorded (db (conn_of (runMigrations reg c))))) /\
  (forall c,
      reachable reg c ->
      prefix_closed_in (versions reg) (recorded (db c))).
Proof.
  intros Hsorted Hpos Hfr. apply Sorted_le_strong in Hsorted.
  split.
  - intros c. now apply prefix_closed_preserved.
  - intros c Hreach. induction Hreach as [c Hfresh | c _ IH].
    + rewrite Hfresh. split; simpl; intros; contradiction.
    + now apply prefix_closed_preserved.
Qed.

(** C3, amended.  On a database that records nothing yet, with positive
    versions and actions that leave the bookkeeping table to the runner, if
    the first run returns then it called every action once, in registry
    order, and a second run calls none and leaves the current version as the
    first run left it. *)
Theorem rerun_after_success_is_idle reg c :
  recorded (db c) = [] ->
  Forall (@positive_version Schema) reg ->
  Forall (@frames_bookkeeping Schema) reg ->
  outcome_of (runMigrations reg c) = Returned tt ->
  rerun_is_idle reg c.
Proof.
  intros Hfresh Hpos Hfr Hret.
  assert (Hcv : currentVersion c = 0).
  { now rewrite currentVersion_recorded, Hfresh. }
  assert (Hpend : pending reg 0 = reg).
  { unfold pending. apply filter_all.
    intros m Hm. rewrite Forall_forall in Hpos. apply Z.ltb_lt. now apply Hpos. }
  assert (Hrun : runMigrations reg c = run_pending reg (prepared c)).
  { now rewrite runMigrations_unfold, Hcv, Hpend. }
  destruct (run_pending reg (prepared c)) as [[r c1] t1] eqn:Hloop.
  rewrite Hrun in Hret. unfold outcome_of in Hret. simpl in Hret. subst r.
  pose proof (run_pending_returned_attempted _ _ _ _ Hloop) as Hatt.
  pose proof (run_pending_returned_recorded _ _ _ _ Hfr Hloop) as Hrec.
  rewrite recorded_prepared, Hfresh in Hrec. simpl in Hrec.
  assert (Hdone : Forall (fun m => version m <= currentVersion c1) reg).
  { rewrite currentVersion_recorded, Hrec.
    destruct reg as [|m0 reg0] eqn:E; [constructor|]. rewrite <- E in *.
    destruct (sql_max_spec (versions reg)) as (mx & Hmx & _ & Hall).
    { rewrite E. discriminate. }
    rewrite Hmx, or_zero_some. rewrite Forall_forall in *.
    intros m Hm. apply Hall. now apply in_map. }
  pose proof (run_without_pending reg c1 Hdone) as Hsecond.
  unfold rerun_is_idle. cbv zeta. rewrite Hrun. unfold conn_of, trace_of.
  cbn [fst snd]. rewrite Hsecond. cbn [fst snd].
  repeat split; [exact Hatt | apply currentVersion_prepared].
Qed.

(** *** The shape of every run *)

Lemma firstn_length_app {A} (a b : list A) : firstn (length a) (a ++ b) = a.
Proof. induction a as [|x a IH]; simpl; [now destruct b | now rewrite IH]. Qed.

Lemma insert_migration_table (v : Z) (n : string) d d2 :
  insert_migration v n d = (Returned tt, d2) ->
  exists rs, migrations_table d = Some rs /\
             migrations_table d2 = Some (rs ++ [mkRow v n]).
Proof.
  unfold insert_migration.
  destruct (migrations_table d) as [rs|]; [|discriminate].
  destruct (existsb (Z.eqb v) (map row_version rs)); [discriminate|].
  intros H. inversion H; subst. exists rs. auto.
Qed.

(** The loop commits a prefix of its list; then it is through, or the next
    transaction fails and is rolled back. *)
Lemma run_pending_cases rest : forall c,
  exists done' rest' c1 (t1 : list Event),
    rest = done' ++ rest' /\
    run_pending done' c = (Returned tt, c1, t1) /\
    ((rest' = [] /\ run_pending rest c = (Returned tt, c1, t1)) \/
     (exists m rest'' (e : Error) (mid : list Event),
         rest' = m :: rest'' /\
         body_raises m (db c1) e /\
         (mid = [] \/ mid = [EvInsert (version m) (name m)]) /\
         run_pending rest c =
           (Thrown e, c1, t1 ++ [EvBegin; EvUp (version m)] ++ mid ++ [EvRollback]))).
Proof.
  induction rest as [|m rest IH]; intros c.
  - exists [], [], c, []. repeat split. now left.
  - rewrite run_pending_cons, run_one_spec.
    destruct (up m (db c)) as [[[]|e] d1] eqn:Hup.
    + destruct (insert_migration (version m) (name m) d1) as [[[]|e] d2] eqn:Hins.
      * destruct (IH {| db := d2; foreign_keys := foreign_keys c |})
          as (done' & rest' & c1 & t1 & Hsplit & Hdone & Hcases).
        exists (m :: done'), rest', c1,
          ([EvBegin; EvUp (version m); EvInsert (version m) (name m); EvCommit] ++ t1).
        split; [now rewrite Hsplit|]. split.
        { rewrite run_pending_cons, run_one_spec, Hup, Hins, Hdone. reflexivity. }
        destruct Hcases as [[-> Hrun] | (m' & rest'' & e & mid & -> & Hb & Hmid & Hrun)].
        -- left. split; [reflexivity|]. now rewrite Hrun.
        -- right. exists m', rest'', e, mid. repeat split; try assumption.
           rewrite Hrun. now rewrite <- app_assoc.
      * exists [], (m :: rest), c, []. repeat split. right.
        exists m, rest, e, [EvInsert (version m) (name m)]. repeat split.
        -- now apply (@insert_raises _ m (db c) e d1 d2).
        -- now right.
    + exists [], (m :: rest), c, []. repeat split. right.
      exists m, rest, e, []. repeat split.
      * now apply (@action_raises _ m (db c) e d1).
      * now left.
Qed.

(** The loop keeps the pragma and never leaves the bookkeeping table
    missing. *)
Lemma run_pending_keeps_handle rest : forall c,
  foreign_keys (conn_of (run_pending rest c)) = foreign_keys c /\
  (migrations_table (db c) <> None ->
   migrations_table (db (conn_of (run_pending rest c))) <> None).
Proof.
  induction rest as [|m rest IH]; intros c; [now split|].
  rewrite run_pending_cons, run_one_spec.
  destruct (up m (db c)) as [[[]|e] d1] eqn:Hup; [|now split].
  destruct (insert_migration (version m) (name m) d1) as [[[]|e] d2] eqn:Hins;
    [|now split].
  rewrite conn_of_bind_trace.
  destruct (IH {| db := d2; foreign_keys := foreign_keys c |}) as [Hfk Htab].
  split; [exact Hfk|]. intros _. apply Htab. cbn [db].
  destruct (insert_migration_table _ _ _ _ Hins) as (rs & _ & ->). discriminate.
Qed.

(** X1.  After any run of any registry, returned or thrown, the connection
    has [foreign_keys] on and the bookkeeping table exists: neither the
    pragma nor the [CREATE TABLE IF NOT EXISTS] is undone by the rollback of
    a failed migration. *)
Theorem run_leaves_pragma_and_table reg c :
  foreign_keys (conn_of (runMigrations reg c)) = true /\
  migrations_table (db (conn_of (runMigrations reg c))) <> None.
Proof.
  rewrite runMigrations_unfold.
  destruct (run_pending_keeps_handle (pending reg (currentVersion c)) (prepared c))
    as [Hfk Htab].
  split.
  - rewrite Hfk, prepared_spec. reflexivity.
  - apply Htab. rewrite prepared_spec. unfold create_migrations_table.
    destruct (migrations_table (db c)) eqn:E; simpl; [now rewrite E | discriminate].
Qed.


(** X3.  In any run of any registry the actions called are those of the
    first descriptors of the pending list, in registry order and without a
    gap; each has a version above the current one; and a run that returns
    has called them all. *)
Theorem called_actions_are_a_pending_prefix reg c :
  (exists n,
      attempted (trace_of (runMigrations reg c)) =
        firstn n (versions (pending reg (currentVersion c)))) /\
  Forall (fun v => currentVersion c < v)
         (attempted (trace_of (runMigrations reg c))) /\
  (outcome_of (runMigrations reg c) = Returned tt ->
   attempted (trace_of (runMigrations reg c)) =
     versions (pending reg (currentVersion c))).
Proof.
  rewrite runMigrations_unfold.
  set (p := pending reg (currentVersion c)).
  assert (Hpre : exists n, attempted (trace_of (run_pending p (prepared c))) =
                           firstn n (versions p)).
  { destruct (run_pending_cases p (prepared c))
      as (done' & rest' & c1 & t1 & Hsplit & Hdone & Hcases).
    pose proof (run_pending_returned_attempted _ _ _ _ Hdone) as Hatt.
    destruct Hcases as [[-> Hrun] | (m & rest'' & e & mid & -> & _ & Hmid & Hrun)];
      rewrite Hrun; unfold trace_of; cbn [snd].
    - exists (length (versions done')). rewrite Hsplit, app_nil_r, Hatt.
      now rewrite firstn_all.
    - exists (length (versions (done' ++ [m]))).
      rewrite Hsplit.
      replace (done' ++ m :: rest'') with ((done' ++ [m]) ++ rest'')
        by now rewrite <- app_assoc.
      unfold versions at 2. rewrite map_app. fold (versions (done' ++ [m])).
      fold (versions rest''). rewrite firstn_length_app.
      rewrite attempted_app, Hatt. unfold versions. rewrite map_app. f_equal.
      destruct Hmid as [-> | ->]; reflexivity. }
  split; [exact Hpre|]. split.
  - destruct Hpre as [n ->]. apply Forall_forall. intros v Hv.
    assert (Hin : In v (versions p)).
    { rewrite <- (firstn_skipn n (versions p)). apply in_or_app. now left. }
    apply in_map_iff in Hin. destruct Hin as (m & <- & Hm).
    apply filter_In in Hm. destruct Hm as [_ Hlt]. now apply Z.ltb_lt.
  - intros Hret.
    destruct (run_pending p (prepared c)) as [[r c1] t1] eqn:Hrun.
    unfold outcome_of in Hret. cbn [fst] in Hret. subst r.
    unfold trace_of. cbn [snd].
    exact (run_pending_returned_attempted _ _ _ _ Hrun).
Qed.

(** *** The rows of the bookkeeping table *)

Lemma recorded_rows d : recorded d = map row_version (rows d).
Proof. unfold recorded, rows. now destruct (migrations_table d). Qed.

Lemma rows_prepared c : rows (db (prepared c)) = rows (db c).
Proof. destruct c as [[s [rs|]] fk]; reflexivity. Qed.

Lemma versions_row_of reg : map row_version (map (@row_of Schema) reg) = versions reg.
Proof. unfold versions. rewrite map_map. reflexivity. Qed.

Lemma outcome_of_bind_trace {A} (x : Outcome A * Conn Schema * list Event) (t1 : list Event) :
  outcome_of (match x with (r, c2, t2) => (r, c2, t1 ++ t2) end) = outcome_of x.
Proof. now destruct x as [[r c2] t2]. Qed.

Lemma firstn_plus {A} (k n : nat) (l : list A) :
  firstn (k + n) l = firstn k l ++ firstn n (skipn k l).
Proof.
  revert l. induction k as [|k IH]; intros l; [reflexivity|].
  destruct l as [|x l]; simpl; [now rewrite firstn_nil | now rewrite IH].
Qed.

(** With actions that leave the bookkeeping table alone, the loop appends
    the rows of the descriptors it commits, and a loop that returns has
    committed them all. *)
Lemma run_pending_rows rest : forall c,
  Forall (@frames_bookkeeping Schema) rest ->
  exists done' rest',
    rest = done' ++ rest' /\
    rows (db (conn_of (run_pending rest c))) =
      rows (db c) ++ map (@row_of Schema) done' /\
    (outcome_of (run_pending rest c) = Returned tt -> rest' = []).
Proof.
  induction rest as [|m rest IH]; intros c Hfr.
  - exists [], []. simpl. now rewrite app_nil_r.
  - inversion Hfr as [|? ? Hm Hrest]; subst.
    rewrite run_pending_cons, run_one_spec.
    destruct (up m (db c)) as [[[]|e] d1] eqn:Hup.
    + destruct (insert_migration (version m) (name m) d1) as [[[]|e] d2] eqn:Hins.
      * rewrite conn_of_bind_trace, outcome_of_bind_trace.
        destruct (IH {| db := d2; foreign_keys := foreign_keys c |} Hrest)
          as (done' & rest' & -> & Hrows & Hret).
        exists (m :: done'), rest'. split; [reflexivity|]. split; [|exact Hret].
        rewrite Hrows. cbn [db].
        destruct (insert_migration_table _ _ _ _ Hins) as (rs & Hd1 & Hd2).
        unfold rows at 1 2. rewrite Hd2, <- (Hm _ _ Hup), Hd1.
        simpl. now rewrite <- app_assoc.
      * exists [], (m :: rest). simpl. rewrite app_nil_r.
        repeat split. discriminate.
    + exists [], (m :: rest). simpl. rewrite app_nil_r.
      repeat split. discriminate.
Qed.

Lemma StronglySorted_app_lt (a b : list Z) :
  StronglySorted Z.lt (a ++ b) ->
  forall x y, In x a -> In y b -> x < y.
Proof.
  induction a as [|z a IH]; simpl; intros H x y Hx Hy; [tauto|].
  inversion H as [|? ? Hs Hall]; subst.
  destruct Hx as [->|Hx].
  - rewrite Forall_forall in Hall. apply Hall. apply in_or_app. now right.
  - now apply (IH Hs).
Qed.

Lemma Sorted_lt_strong (l : list Z) : Sorted Z.lt l -> StronglySorted Z.lt l.
Proof.
  apply Sorted_StronglySorted. intros x y z. apply Z.lt_trans.
Qed.

(** In a registry strictly sorted by positive versions, once the first
    descriptors are recorded the pending ones are all the others. *)
Lemma pending_after_prefix (a b : list (Migration Schema)) :
  StronglySorted Z.lt (versions (a ++ b)) ->
  Forall (@positive_version Schema) (a ++ b) ->
  pending (a ++ b) (or_zero (sql_max (versions a))) = b.
Proof.
  intros Hs Hpos. unfold pending. rewrite filter_app.
  unfold versions in Hs. rewrite map_app in Hs.
  fold (versions a) in Hs. fold (versions b) in Hs.
  destruct a as [|m0 a0] eqn:Ea.
  - simpl. apply filter_all. intros m Hm. apply Z.ltb_lt.
    rewrite Forall_forall in Hpos. now apply (Hpos m).
  - rewrite <- Ea in *.
    destruct (sql_max_spec (versions a)) as (mx & Hmx & Hin & Hall).
    { rewrite Ea. discriminate. }
    rewrite Hmx, or_zero_some.
    rewrite filter_none, filter_all; [reflexivity | |].
    + intros m Hm. apply Z.ltb_lt.
      apply (StronglySorted_app_lt _ _ Hs mx (version m) Hin).
      now apply in_map.
    + intros m Hm. apply Z.ltb_ge.
      rewrite Forall_forall in Hall. apply Hall. now apply in_map.
Qed.

(** One run from a database whose rows are those of the first [k]
    descriptors. *)
Lemma run_from_prefix reg c (k : nat) :
  StronglySorted Z.lt (versions reg) ->
  Forall (@positive_version Schema) reg ->
  Forall (@frames_bookkeeping Schema) reg ->
  rows (db c) = map (@row_of Schema) (firstn k reg) ->
  exists n,
    rows (db (conn_of (runMigrations reg c))) =
      rows (db c) ++ map (@row_of Schema) (firstn n (skipn k reg)) /\
    (outcome_of (runMigrations reg c) = Returned tt ->
     firstn n (skipn k reg) = skipn k reg).
Proof.
  intros Hs Hpos Hfr Hrows.
  rewrite runMigrations_unfold.
  assert (Hcv : currentVersion c = or_zero (sql_max (versions (firstn k reg)))).
  { now rewrite currentVersion_recorded, recorded_rows, Hrows, versions_row_of. }
  assert (Hpend : pending reg (currentVersion c) = skipn k reg).
  { rewrite Hcv. rewrite <- (firstn_skipn k reg) at 1.
    apply pending_after_prefix; now rewrite firstn_skipn. }
  rewrite Hpend.
  assert (Hfrp : Forall (@frames_bookkeeping Schema) (skipn k reg)).
  { rewrite Forall_forall in *. intros m Hm. apply Hfr.
    rewrite <- (firstn_skipn k reg). apply in_or_app. now right. }
  destruct (run_pending_rows (skipn k reg) (prepared c) Hfrp)
    as (done' & rest' & Hsplit & Hafter & Hret).
  exists (length done').
  assert (Hfirst : firstn (length done') (skipn k reg) = done').
  { rewrite Hsplit. apply firstn_length_app. }
  rewrite Hfirst. split.
  - rewrite Hafter. f_equal. apply rows_prepared.
  - intros Hr. rewrite (Hret Hr), app_nil_r in Hsplit. now symmetry.
Qed.

Lemma run_keeps_prefix reg c (k : nat) :
  StronglySorted Z.lt (versions reg) ->
  Forall (@positive_version Schema) reg ->
  Forall (@frames_bookkeeping Schema) reg ->
  rows (db c) = map (@row_of Schema) (firstn k reg) ->
  exists n,
    rows (db (conn_of (runMigrations reg c))) =
      rows (db c) ++ map (@row_of Schema) (firstn n (skipn k reg)) /\
    rows (db (conn_of (runMigrations reg c))) =
      map (@row_of Schema) (firstn (k + n) reg).
Proof.
  intros Hs Hpos Hfr Hrows.
  destruct (run_from_prefix reg c k Hs Hpos Hfr Hrows) as (n & Hafter & _).
  exists n. split; [exact Hafter|].
  now rewrite Hafter, Hrows, firstn_plus, map_app.
Qed.

Lemma reachable_rows reg c :
  StronglySorted Z.lt (versions reg) ->
  Forall (@positive_version Schema) reg ->
  Forall (@frames_bookkeeping Schema) reg ->
  reachable reg c ->
  exists k, rows (db c) = map (@row_of Schema) (firstn k reg).
Proof.
  intros Hs Hpos Hfr Hreach. induction Hreach as [c Hfresh | c _ [k Hk]].
  - exists 0%nat. simpl. rewrite recorded_rows in Hfresh.
    now destruct (rows (db c)).
  - destruct (run_keeps_prefix reg c k Hs Hpos Hfr Hk) as (n & _ & Hn).
    now exists (k + n)%nat.
Qed.

(** X4.  Take a registry strictly sorted by version, with positive versions
    and actions that leave the bookkeeping table to the runner.  A run on a
    database whose rows are those of the first [k] descriptors leaves these
    rows as they are and appends, in registry order, the rows of some of the
    next descriptors; so after any number of runs from a database that
    records nothing, the bookkeeping table holds exactly the rows (version
    and name) of the first descriptors of the registry. *)
Theorem bookkeeping_rows_follow_registry reg :
  Sorted Z.lt (versions reg) ->
  Forall (@positive_version Schema) reg ->
  Forall (@frames_bookkeeping Schema) reg ->
  (forall c (k : nat),
      rows (db c) = map (@row_of Schema) (firstn k reg) ->
      exists n,
        rows (db (conn_of (runMigrations reg c))) =
          rows (db c) ++ map (@row_of Schema) (firstn n (skipn k reg)) /\
        rows (db (conn_of (runMigrations reg c))) =
          map (@row_of Schema) (firstn (k + n) reg)) /\
  (forall c, reachable reg c ->
             exists k, rows (db c) = map (@row_of Schema) (firstn k reg)).
Proof.
  intros Hsorted Hpos Hfr. apply Sorted_lt_strong in Hsorted.
  split.
  - intros c k. now apply run_keeps_prefix.
  - intros c. now apply reachable_rows.
Qed.

(** X5.  For such a registry and such a database, a run that returns has
    recorded the whole registry, row for row, and the current version is then
    the greatest registry version. *)
Theorem returned_run_is_fully_migrated reg c (k : nat) :
  Sorted Z.lt (versions reg) ->
  Forall (@positive_version Schema) reg ->
  Forall (@frames_bookkeeping Schema) reg ->
  rows (db c) = map (@row_of Schema) (firstn k reg) ->
  outcome_of (runMigrations reg c) = Returned tt ->
  rows (db (conn_of (runMigrations reg c))) = map (@row_of Schema) reg /\
  Forall (fun m => version m <= currentVersion (conn_of (runMigrations reg c))) reg /\
  (reg <> [] -> In (currentVersion (conn_of (runMigrations reg c))) (versions reg)).
Proof.
  intros Hsorted Hpos Hfr Hrows Hret. apply Sorted_lt_strong in Hsorted.
  destruct (run_from_prefix reg c k Hsorted Hpos Hfr Hrows) as (n & Hafter & Hall).
  assert (Hfull : rows (db (conn_of (runMigrations reg c))) = map (@row_of Schema) reg).
  { rewrite Hafter, (Hall Hret), Hrows, <- map_app. now rewrite firstn_skipn. }
  split; [exact Hfull|].
  rewrite currentVersion_recorded, recorded_rows, Hfull, versions_row_of.
  destruct reg as [|m0 reg0] eqn:E; [split; [constructor | congruence]|].
  rewrite <- E in *.
  destruct (sql_max_spec (versions reg)) as (mx & Hmx & Hin & Hle).
  { rewrite E. discriminate. }
  rewrite Hmx, or_zero_some. split; [|now intros _].
  rewrite Forall_forall in *. intros m Hm. apply Hle. now apply in_map.
Qed.

(** X6.  With actions that leave the bookkeeping table to the runner, no
    run of any registry lowers the current version, and a run that records
    anything raises it. *)
Theorem current_version_never_decreases reg c :
  Forall (@frames_bookkeeping Schema) reg ->
  currentVersion c <= currentVersion (conn_of (runMigrations reg c)) /\
  (recorded (db (conn_of (runMigrations reg c))) <> recorded (db c) ->
   currentVersion c < currentVersion (conn_of (runMigrations reg c))).
Proof.
  intros Hfr.
  rewrite (currentVersion_recorded (conn_of (runMigrations reg c))).
  rewrite runMigrations_unfold.
  set (cv := currentVersion c).
  assert (Hfrp : Forall (@frames_bookkeeping Schema) (pending reg cv)).
  { unfold pending. rewrite Forall_forall in *. intros m Hm.
    apply filter_In in Hm. now apply Hfr. }
  destruct (run_pending_recorded (pending reg cv) (prepared c) Hfrp)
    as (done' & rest' & Hsplit & Hrec).
  rewrite Hrec, recorded_prepared.
  assert (Hnew : Forall (fun v => cv < v) (versions done')).
  { apply Forall_forall. intros v Hv.
    apply in_map_iff in Hv. destruct Hv as (m & <- & Hm).
    assert (Hin : In m (pending reg cv)).
    { rewrite Hsplit. apply in_or_app. now left. }
    apply filter_In in Hin. now apply Z.ltb_lt. }
  destruct (versions done') as [|v0 vs] eqn:Ev.
  - rewrite app_nil_r. unfold cv. rewrite <- currentVersion_recorded.
    split; [lia | congruence].
  - assert (Hlt : cv < or_zero (sql_max (recorded (db c) ++ v0 :: vs))).
    { destruct (sql_max_spec (recorded (db c) ++ v0 :: vs)) as (mx & Hmx & _ & Hle).
      { intros E. apply app_eq_nil in E. destruct E; discriminate. }
      rewrite Hmx, or_zero_some.
      inversion Hnew as [|? ? Hv0 _]; subst.
      rewrite Forall_forall in Hle.
      assert (Hin0 : In v0 (recorded (db c) ++ v0 :: vs))
        by (apply in_or_app; right; now left).
      specialize (Hle v0 Hin0). lia. }
    split; [lia | intros _; exact Hlt].
Qed.

End EngineFacts.

(** ** The migration bodies *)

Section MigrationFacts.

Variable Schema : Type.
Variable exec : Stmt -> Act.Act Schema unit.

Implicit Types (d : DB Schema) (s : Stmt).

Lemma exec_all_cons s (stmts : list Stmt) d :
  exec_all exec (s :: stmts) d =
    match exec s d with
    | (Returned _, d1) => exec_all exec stmts d1
    | (Thrown e, d1) => (Thrown e, d1)
    end.
Proof. reflexivity. Qed.

(** A sequence of statements stops at the first that throws. *)
Lemma exec_all_stops (pre : list Stmt) s (post : list Stmt) : forall d d1 d2 (e : Error),
  exec_all exec pre d = (Returned tt, d1) ->
  exec s d1 = (Thrown e, d2) ->
  exec_all exec (pre ++ s :: post) d = (Thrown e, d2).
Proof.
  induction pre as [|p pre IH]; intros d d1 d2 e Hpre Hs.
  - inversion Hpre; subst. simpl app. now rewrite exec_all_cons, Hs.
  - simpl app. rewrite exec_all_cons in *.
    destruct (exec p d) as [[[]|e0] d0]; [|discriminate].
    now apply (IH d0 d1 d2 e).
Qed.

(** C5, amended.  Whatever the guarded [ALTER TABLE ... ADD COLUMN] does
    (it returns, or it throws any error at all, the duplicate column or
    another), migrations 002 and 004 go on with their remaining statements
    from the content it left; an error of one of the remaining statements
    comes out of the migration. *)
Theorem add_column_errors_are_all_swallowed d :
  (forall (r : Outcome unit) d1,
      exec ALTER_settings_ADD_language d = (r, d1) ->
      migration_002_add_notification_system exec d =
        exec_all exec notification_system d1) /\
  (forall (r : Outcome unit) d1,
      exec ALTER_notification_settings_ADD_repeat_notification d = (r, d1) ->
      migration_004_add_repeat_notification_setting exec d =
        exec UPDATE_notification_settings_repeat_notification d1) /\
  (forall (r : Outcome unit) d1 pre s post d2 d3 (e : Error),
      exec ALTER_settings_ADD_language d = (r, d1) ->
      notification_system = pre ++ s :: post ->
      exec_all exec pre d1 = (Returned tt, d2) ->
      exec s d2 = (Thrown e, d3) ->
      migration_002_add_notification_system exec d = (Thrown e, d3)).
Proof.
  assert (H2 : forall (r : Outcome unit) d1,
             exec ALTER_settings_ADD_language d = (r, d1) ->
             migration_002_add_notification_system exec d =
               exec_all exec notification_system d1).
  { intros r d1 H. unfold migration_002_add_notification_system.
    unfold Act.bind, Act.try_catch, Act.ret. rewrite H.
    destruct r as [[]|e]; reflexivity. }
  split; [exact H2|]. split.
  - intros r d1 H. unfold migration_004_add_repeat_notification_setting.
    unfold Act.bind, Act.try_catch, Act.ret. rewrite H.
    destruct r as [[]|e]; reflexivity.
  - intros r d1 pre s post d2 d3 e Halter Hsplit Hpre Hs.
    rewrite (H2 r d1 Halter), Hsplit.
    now apply (exec_all_stops pre s post d1 d2 d3 e).
Qed.

End MigrationFacts.

(** ** The registries *)

Section RegistryFacts.

Variable Schema : Type.

Lemma keeps_ret {A} (a : A) : Act.keeps_bookkeeping (@Act.ret Schema A a).
Proof. intros d r d' H. now inversion H. Qed.

Lemma keeps_throw {A} (e : Error) : Act.keeps_bookkeeping (@Act.throw Schema A e).
Proof. intros d r d' H. now inversion H. Qed.

Lemma keeps_bind {A B} (m : Act.Act Schema A) (k : A -> Act.Act Schema B) :
  Act.keeps_bookkeeping m ->
  (forall a, Act.keeps_bookkeeping (k a)) ->
  Act.keeps_bookkeeping (Act.bind m k).
Proof.
  intros Hm Hk d r d' H. unfold Act.bind in H.
  destruct (m d) as [[a|e] d1] eqn:E.
  - rewrite (Hk a d1 r d' H). exact (Hm d _ d1 E).
  - inversion H; subst. exact (Hm d _ d' E).
Qed.

Lemma keeps_try_catch {A} (m : Act.Act Schema A) (h : Error -> Act.Act Schema A) :
  Act.keeps_bookkeeping m ->
  (forall e, Act.keeps_bookkeeping (h e)) ->
  Act.keeps_bookkeeping (Act.try_catch m h).
Proof.
  intros Hm Hh d r d' H. unfold Act.try_catch in H.
  destruct (m d) as [[a|e] d1] eqn:E.
  - inversion H; subst. exact (Hm d _ d' E).
  - rewrite (Hh e d1 r d' H). exact (Hm d _ d1 E).
Qed.

Lemma keeps_for_each {X} (body : X -> Act.Act Schema unit) (xs : list X) :
  (forall x, Act.keeps_bookkeeping (body x)) ->
  Act.keeps_bookkeeping (Act.for_each body xs).
Proof.
  intros Hb. induction xs as [|x xs IH]; simpl.
  - apply keeps_ret.
  - apply keeps_bind; [apply Hb | intros _; exact IH].
Qed.

Lemma keeps_frames (v : Z) (n : string) (a : Act.Act Schema unit) :
  Act.keeps_bookkeeping a -> frames_bookkeeping (mkMigration v n a).
Proof. intros Ha d d' H. exact (Ha d _ d' H). Qed.

(** The loader of [schema.sql] touches the bookkeeping table only if a
    statement does. *)
Lemma keeps_schema_loader {S} (exec : S -> Act.Act Schema unit)
  (wrap : jsstring -> S) (readSchemaFile : Outcome jsstring) :
  (forall st, Act.keeps_bookkeeping (exec st)) ->
  Act.keeps_bookkeeping
    (Act.try_catch
       (match readSchemaFile with
        | Thrown e => Act.throw e
        | Returned schemaSQL =>
            Act.for_each
              (fun statement =>
                 if truthy (trim statement)
                 then Act.try_catch (exec (wrap statement))
                                    (fun error => Act.throw error)
                 else Act.ret tt)
              (parseSQL (cleanSQL schemaSQL))
        end)
       (fun error => Act.throw error)).
Proof.
  intros Hexec. apply keeps_try_catch; [|intros e; apply keeps_throw].
  destruct readSchemaFile as [schemaSQL|e]; [|apply keeps_throw].
  apply keeps_for_each. intros statement.
  destruct (truthy (trim statement)); [|apply keeps_ret].
  apply keeps_try_catch; [apply Hexec | intros e; apply keeps_throw].
Qed.

Section FourMigrations.

Variable exec : Stmt -> Act.Act Schema unit.
Variable readSchemaFile : Outcome jsstring.
Hypothesis exec_keeps : forall st, Act.keeps_bookkeeping (exec st).

Lemma migrations_frame :
  Forall (@frames_bookkeeping Schema) (migrations exec readSchemaFile).
Proof.
  unfold migrations. repeat constructor; apply keeps_frames.
  - apply (keeps_schema_loader exec SchemaStatement readSchemaFile exec_keeps).
  - apply keeps_bind.
    + apply keeps_try_catch; [apply exec_keeps | intros e; apply keeps_ret].
    + intros _. apply keeps_for_each, exec_keeps.
  - apply keeps_for_each, exec_keeps.
  - apply keeps_bind.
    + apply keeps_try_catch; [apply exec_keeps | intros e; apply keeps_ret].
    + intros _. apply exec_keeps.
Qed.

Lemma migrations_sorted :
  StronglySorted Z.lt (versions (migrations exec readSchemaFile)) /\
  Forall (@positive_version Schema) (migrations exec readSchemaFile).
Proof.
  split.
  - apply Sorted_lt_strong. repeat constructor.
  - repeat constructor.
Qed.

(** X7.  The four-migration registry, over a database engine whose [exec]
    leaves the bookkeeping table alone.  After any number of runs from a
    database that records nothing, the bookkeeping table holds the first [k]
    of the four rows 1 [initial_schema_consolidated], 2
    [add_notification_system], 3 [add_scheduler_settings], 4
    [add_repeat_notification_setting]; and a run that returns leaves all four,
    with current version 4. *)
Theorem four_migration_registry_rows c :
  reachable (migrations exec readSchemaFile) c ->
  (exists k,
      rows (db c) =
        firstn k [ mkRow 1 "initial_schema_consolidated";
                   mkRow 2 "add_notification_system";
                   mkRow 3 "add_scheduler_settings";
                   mkRow 4 "add_repeat_notification_setting" ]) /\
  (outcome_of (runMigrations (migrations exec readSchemaFile) c) = Returned tt ->
   rows (db (conn_of (runMigrations (migrations exec readSchemaFile) c))) =
     [ mkRow 1 "initial_schema_consolidated";
       mkRow 2 "add_notification_system";
       mkRow 3 "add_scheduler_settings";
       mkRow 4 "add_repeat_notification_setting" ] /\
   currentVersion (conn_of (runMigrations (migrations exec readSchemaFile) c)) = 4%Z).
Proof.
  intros Hreach.
  destruct migrations_sorted as [Hs Hpos].
  destruct (reachable_rows Schema _ c Hs Hpos migrations_frame Hreach) as [k Hk].
  split.
  - exists k. rewrite Hk, <- firstn_map. reflexivity.
  - intros Hret.
    destruct (run_from_prefix Schema _ c k Hs Hpos migrations_frame Hk)
      as (n & Hafter & Hall).
    assert (Hfull : rows (db (conn_of (runMigrations (migrations exec readSchemaFile) c)))
                    = map (@row_of Schema) (migrations exec readSchemaFile)).
    { rewrite Hafter, (Hall Hret), Hk, <- map_app. now rewrite firstn_skipn. }
    split; [exact Hfull|].
    rewrite currentVersion_recorded, recorded_rows, Hfull. reflexivity.
Qed.

End FourMigrations.

Section TwoMigrations.

Variable exec : TelegramVariant.Stmt -> Act.Act Schema unit.
Variable readSchemaFile : Outcome jsstring.
Hypothesis exec_keeps : forall st, Act.keeps_bookkeeping (exec st).

Lemma telegram_migrations_frame :
  Forall (@frames_bookkeeping Schema) (TelegramVariant.migrations exec readSchemaFile).
Proof.
  unfold TelegramVariant.migrations. repeat constructor; apply keeps_frames.
  - apply (keeps_schema_loader exec TelegramVariant.SchemaStatement
             readSchemaFile exec_keeps).
  - apply keeps_for_each, exec_keeps.
Qed.

Lemma telegram_migrations_sorted :
  StronglySorted Z.lt (versions (TelegramVariant.migrations exec readSchemaFile)) /\
  Forall (@positive_version Schema) (TelegramVariant.migrations exec readSchemaFile).
Proof.
  split.
  - apply Sorted_lt_strong. repeat constructor.
  - repeat constructor.
Qed.

(** X8.  The two-migration registry of [server/db/migrations.js], over a
    database engine whose [exec] leaves the bookkeeping table alone.  After
    any number of runs from a database that records nothing, the bookkeeping
    table holds the first [k] of the two rows 1 [initial_schema_consolidated],
    2 [add_notification_tables_telegram]; and a run that returns leaves both,
    with current version 2. *)
Theorem two_migration_registry_rows c :
  reachable (TelegramVariant.migrations exec readSchemaFile) c ->
  (exists k,
      rows (db c) =
        firstn k [ mkRow 1 "initial_schema_consolidated";
                   mkRow 2 "add_notification_tables_telegram" ]) /\
  (outcome_of (runMigrations (TelegramVariant.migrations exec readSchemaFile) c)
     = Returned tt ->
   rows (db (conn_of (runMigrations (TelegramVariant.migrations exec readSchemaFile) c))) =
     [ mkRow 1 "initial_schema_consolidated";
       mkRow 2 "add_notification_tables_telegram" ] /\
   currentVersion
     (conn_of (runMigrations (TelegramVariant.migrations exec readSchemaFile) c)) = 2%Z).
Proof.
  intros Hreach.
  destruct telegram_migrations_sorted as [Hs Hpos].
  destruct (reachable_rows Schema _ c Hs Hpos telegram_migrations_frame Hreach)
    as [k Hk].
  split.
  - exists k. rewrite Hk, <- firstn_map. reflexivity.
  - intros Hret.
    destruct (run_from_prefix Schema _ c k Hs Hpos telegram_migrations_frame Hk)
      as (n & Hafter & Hall).
    assert (Hfull : rows (db (conn_of (runMigrations
                       (TelegramVariant.migrations exec readSchemaFile) c)))
                    = map (@row_of Schema)
                        (TelegramVariant.migrations exec readSchemaFile)).
    { rewrite Hafter, (Hall Hret), Hk, <- map_app. now rewrite firstn_skipn. }
    split; [exact Hfull|].
    rewrite currentVersion_recorded, recorded_rows, Hfull. reflexivity.
Qed.

End TwoMigrations.

End RegistryFacts.

(** ** Scenarios *)

Lemma creates_frames (v : Z) (n t : string) :
  frames_bookkeeping (mkMigration v n (Toy.creates t)).
Proof.
  intros d d' H. simpl in H. unfold Toy.creates, Toy.create_table in H.
  destruct (Toy.has_table t (schema d)); inversion H; reflexivity.
Qed.

Lemma creates_then_fails_frames (v : Z) (n t : string) :
  frames_bookkeeping (mkMigration v n (Toy.creates_then_fails t)).
Proof.
  intros d d' H. simpl in H.
  unfold Toy.creates_then_fails, Act.bind, Act.throw, Toy.create_table in H.
  destruct (Toy.has_table t (schema d)); discriminate.
Qed.

(** Two runs on a fresh database.  In the first the action of version 2
    creates table [b] and throws; in the second the action of the second
    descriptor of version 1 creates table [z] and its insert is refused.
    Either way the run throws that error, the connection is the one left by
    the first migration (table [a] alone, one row), and the third action is
    not called. *)
Lemma failed_migration_rolls_back_and_aborts_witness :
  (exists t',
      runMigrations Toy.registry_failing Toy.fresh =
        (Thrown (JsError "boom"), Toy.after_m1, t') /\
      attempted t' = [1; 2]%Z) /\
  (exists t',
      runMigrations Toy.registry_duplicate Toy.fresh =
        (Thrown (SqliteError "UNIQUE constraint failed: migrations.version"),
         Toy.after_m1, t') /\
      attempted t' = [1; 1]%Z).
Proof.
  split.
  - destruct (failed_migration_rolls_back_and_aborts Toy.TSchema
                Toy.registry_failing Toy.fresh [Toy.m1] Toy.m2_failing [Toy.m3]
                Toy.after_m1 [EvBegin; EvUp 1; EvInsert 1 "one"; EvCommit]
                (JsError "boom"))
      as (t' & Hrun & _ & Hatt & _).
    + reflexivity.
    + reflexivity.
    + apply (@action_raises _ Toy.m2_failing (db Toy.after_m1) (JsError "boom")
               {| schema := [("a", ["id"]); ("b", ["id"])]%string;
                  migrations_table := Some [mkRow 1 "one"] |}).
      reflexivity.
    + exists t'. split; [exact Hrun | exact Hatt].
  - destruct (failed_migration_rolls_back_and_aborts Toy.TSchema
                Toy.registry_duplicate Toy.fresh [Toy.m1] Toy.m1_again [Toy.m3]
                Toy.after_m1 [EvBegin; EvUp 1; EvInsert 1 "one"; EvCommit]
                (SqliteError "UNIQUE constraint failed: migrations.version"))
      as (t' & Hrun & _ & Hatt & _).
    + reflexivity.
    + reflexivity.
    + apply (@insert_raises _ Toy.m1_again (db Toy.after_m1)
               (SqliteError "UNIQUE constraint failed: migrations.version")
               {| schema := [("a", ["id"]); ("z", ["id"])]%string;
                  migrations_table := Some [mkRow 1 "one"] |}
               {| schema := [("a", ["id"]); ("z", ["id"])]%string;
                  migrations_table := Some [mkRow 1 "one"] |});
        reflexivity.
    + exists t'. split; [exact Hrun | exact Hatt].
Defined.

Lemma toy_actions_frame :
  Forall (@frames_bookkeeping Toy.TSchema) Toy.registry_failing.
Proof.
  repeat constructor;
    [apply creates_frames | apply creates_then_fails_frames | apply creates_frames].
Qed.

Lemma recorded_versions_stay_prefix_closed_witness :
  prefix_closed_in (versions Toy.registry_failing)
    (recorded (db (conn_of (runMigrations Toy.registry_failing Toy.fresh)))) /\
  recorded (db (conn_of (runMigrations Toy.registry_failing Toy.fresh))) = [1%Z].
Proof.
  split; [|reflexivity].
  assert (Hsorted : Sorted Z.le (versions Toy.registry_failing))
    by (repeat constructor; simpl; lia).
  assert (Hpos : Forall (@positive_version Toy.TSchema) Toy.registry_failing)
    by (repeat constructor; unfold positive_version; simpl; lia).
  apply (proj1 (recorded_versions_stay_prefix_closed
                  Toy.TSchema Toy.registry_failing Hsorted Hpos toy_actions_frame)
               Toy.fresh).
  split; simpl; intros; contradiction.
Defined.

Lemma rerun_after_success_is_idle_witness :
  rerun_is_idle Toy.registry_ok Toy.fresh.
Proof.
  apply (rerun_after_success_is_idle Toy.TSchema Toy.registry_ok Toy.fresh).
  - reflexivity.
  - repeat constructor; unfold positive_version; simpl; lia.
  - repeat constructor; apply creates_frames.
  - reflexivity.
Defined.

(** C3 as stated fails: with a registry sorted by version whose second
    action throws, the first run on a fresh database does not call the third
    action, and the second run calls the second action again. *)
Lemma rerun_after_failure_is_not_idle :
  Sorted Z.le (versions Toy.registry_failing) /\
  attempted (trace_of (runMigrations Toy.registry_failing Toy.fresh)) = [1; 2]%Z /\
  attempted
    (trace_of
       (runMigrations Toy.registry_failing
          (conn_of (runMigrations Toy.registry_failing Toy.fresh)))) = [2%Z] /\
  ~ rerun_is_idle Toy.registry_failing Toy.fresh.
Proof.
  split; [repeat constructor; simpl; lia|].
  split; [reflexivity|]. split; [reflexivity|].
  unfold rerun_is_idle. cbv zeta. intros (H & _). vm_compute in H. discriminate.
Qed.

(** C5 as stated fails: on a database without the table [settings] the
    [ALTER TABLE] of migration 002 throws "no such table", which is not the
    duplicate-column error, and the migration returns all the same. *)
Lemma no_such_table_is_swallowed :
  Toy.exec ALTER_settings_ADD_language Toy.empty_db =
    (Thrown (Toy.no_such_table "settings"), Toy.empty_db) /\
  Toy.no_such_table "settings" <> duplicate_column "language" /\
  fst (migration_002_add_notification_system Toy.exec Toy.empty_db) = Returned tt /\
  ~ propagates_other_errors Toy.exec ALTER_settings_ADD_language "language"
      (migration_002_add_notification_system Toy.exec).
Proof.
  split; [reflexivity|]. split; [discriminate|]. split; [reflexivity|].
  intros H.
  specialize (H Toy.empty_db (Toy.no_such_table "settings") Toy.empty_db eq_refl).
  assert (Hne : Toy.no_such_table "settings" <> duplicate_column "language")
    by discriminate.
  specialize (H Hne). vm_compute in H. discriminate.
Qed.

Lemma no_pending_no_work_witness :
  runMigrations Toy.real_registry Toy.migrated =
    (Returned tt, prepared Toy.migrated, []) /\
  filter is_begin (trace_of (runMigrations Toy.real_registry Toy.migrated)) = [] /\
  filter is_insert (trace_of (runMigrations Toy.real_registry Toy.migrated)) = [] /\
  attempted (trace_of (runMigrations Toy.real_registry Toy.migrated)) = [] /\
  recorded (db (conn_of (runMigrations Toy.real_registry Toy.migrated))) =
    recorded (db Toy.migrated) /\
  schema (db (conn_of (runMigrations Toy.real_registry Toy.migrated))) =
    schema (db Toy.migrated) /\
  (forall rows, migrations_table (db Toy.migrated) = Some rows ->
                db (conn_of (runMigrations Toy.real_registry Toy.migrated)) =
                  db Toy.migrated).
Proof.
  apply (no_pending_no_work Toy.TSchema Toy.real_registry Toy.migrated).
  repeat constructor; vm_compute; discriminate.
Defined.

(** ** Scenarios for the runner and the registries *)

Lemma toy_ok_actions_frame :
  Forall (@frames_bookkeeping Toy.TSchema) Toy.registry_ok.
Proof. repeat constructor; apply creates_frames. Qed.

Lemma toy_statements_keep :
  Act.keeps_bookkeeping (Toy.alter_add_column "settings" "language") /\
  (forall t c, Act.keeps_bookkeeping (Toy.alter_add_column t c)) /\
  (forall t cols, Act.keeps_bookkeeping (Toy.create_table t cols)) /\
  (forall t, Act.keeps_bookkeeping (Toy.uses_table t)) /\
  (forall t c, Act.keeps_bookkeeping (Toy.update_column t c)).
Proof.
  assert (Halter : forall t c, Act.keeps_bookkeeping (Toy.alter_add_column t c)).
  { intros t c d r d' H. unfold Toy.alter_add_column in H.
    destruct (Toy.columns_of t (schema d)); [|now inversion H].
    destruct (existsb (String.eqb c) l); now inversion H. }
  split; [apply Halter|]. split; [exact Halter|]. repeat split.
  - intros t cols d r d' H. unfold Toy.create_table in H.
    destruct (Toy.has_table t (schema d)); now inversion H.
  - intros t d r d' H. unfold Toy.uses_table in H.
    destruct (Toy.has_table t (schema d)); now inversion H.
  - intros t c d r d' H. unfold Toy.update_column in H.
    destruct (Toy.columns_of t (schema d)); [|now inversion H].
    destruct (existsb (String.eqb c) l); now inversion H.
Qed.

Lemma toy_exec_keeps (st : Stmt) : Act.keeps_bookkeeping (Toy.exec st).
Proof.
  destruct toy_statements_keep as (_ & Ha & Hc & Hu & Hup).
  destruct st; simpl; auto. intros d r d' H. now inversion H.
Qed.

Lemma toy_exec_telegram_keeps (st : TelegramVariant.Stmt) :
  Act.keeps_bookkeeping (Toy.exec_telegram st).
Proof.
  destruct toy_statements_keep as (_ & Ha & Hc & Hu & Hup).
  destruct st; simpl; auto. intros d r d' H. now inversion H.
Qed.


Lemma bookkeeping_rows_follow_registry_witness :
  exists n,
    rows (db (conn_of (runMigrations Toy.registry_failing Toy.fresh))) =
      rows (db Toy.fresh) ++
      map (@row_of Toy.TSchema) (firstn n (skipn 0 Toy.registry_failing)) /\
    rows (db (conn_of (runMigrations Toy.registry_failing Toy.fresh))) =
      map (@row_of Toy.TSchema) (firstn (0 + n) Toy.registry_failing).
Proof.
  assert (Hsorted : Sorted Z.lt (versions Toy.registry_failing))
    by (repeat constructor).
  assert (Hpos : Forall (@positive_version Toy.TSchema) Toy.registry_failing)
    by (repeat constructor).
  apply (proj1 (bookkeeping_rows_follow_registry Toy.TSchema Toy.registry_failing
                  Hsorted Hpos toy_actions_frame) Toy.fresh 0%nat).
  reflexivity.
Defined.

Lemma returned_run_is_fully_migrated_witness :
  rows (db (conn_of (runMigrations Toy.registry_ok Toy.fresh))) =
    map (@row_of Toy.TSchema) Toy.registry_ok /\
  Forall (fun m => (version m <=
                    currentVersion (conn_of (runMigrations Toy.registry_ok Toy.fresh)))%Z)
         Toy.registry_ok /\
  (Toy.registry_ok <> [] ->
   In (currentVersion (conn_of (runMigrations Toy.registry_ok Toy.fresh)))
      (versions Toy.registry_ok)).
Proof.
  apply (returned_run_is_fully_migrated Toy.TSchema Toy.registry_ok Toy.fresh 0%nat).
  - repeat constructor.
  - repeat constructor.
  - exact toy_ok_actions_frame.
  - reflexivity.
  - reflexivity.
Defined.

Lemma current_version_never_decreases_witness :
  (currentVersion Toy.fresh <=
   currentVersion (conn_of (runMigrations Toy.registry_failing Toy.fresh)))%Z /\
  (recorded (db (conn_of (runMigrations Toy.registry_failing Toy.fresh))) <>
     recorded (db Toy.fresh) ->
   (currentVersion Toy.fresh <
    currentVersion (conn_of (runMigrations Toy.registry_failing Toy.fresh)))%Z).
Proof.
  apply (current_version_never_decreases Toy.TSchema Toy.registry_failing Toy.fresh).
  exact toy_actions_frame.
Defined.

Lemma four_migration_registry_rows_witness :
  (exists k,
      rows (db Toy.migrated) =
        firstn k [ mkRow 1 "initial_schema_consolidated";
                   mkRow 2 "add_notification_system";
                   mkRow 3 "add_scheduler_settings";
                   mkRow 4 "add_repeat_notification_setting" ]) /\
  (outcome_of (runMigrations Toy.real_registry Toy.migrated) = Returned tt ->
   rows (db (conn_of (runMigrations Toy.real_registry Toy.migrated))) =
     [ mkRow 1 "initial_schema_consolidated";
       mkRow 2 "add_notification_system";
       mkRow 3 "add_scheduler_settings";
       mkRow 4 "add_repeat_notification_setting" ] /\
   currentVersion (conn_of (runMigrations Toy.real_registry Toy.migrated)) = 4%Z).
Proof.
  apply (four_migration_registry_rows Toy.TSchema Toy.exec (Returned two_tables)
           toy_exec_keeps Toy.migrated).
  apply reachable_run. apply reachable_fresh. reflexivity.
Defined.

Lemma two_migration_registry_rows_witness :
  (exists k,
      rows (db (conn_of (runMigrations Toy.telegram_registry Toy.fresh))) =
        firstn k [ mkRow 1 "initial_schema_consolidated";
                   mkRow 2 "add_notification_tables_telegram" ]) /\
  (outcome_of
     (runMigrations Toy.telegram_registry
        (conn_of (runMigrations Toy.telegram_registry Toy.fresh))) = Returned tt ->
   rows (db (conn_of
               (runMigrations Toy.telegram_registry
                  (conn_of (runMigrations Toy.telegram_registry Toy.fresh))))) =
     [ mkRow 1 "initial_schema_consolidated";
       mkRow 2 "add_notification_tables_telegram" ] /\
   currentVersion
     (conn_of
        (runMigrations Toy.telegram_registry
           (conn_of (runMigrations Toy.telegram_registry Toy.fresh)))) = 2%Z).
Proof.
  apply (two_migration_registry_rows Toy.TSchema Toy.exec_telegram (Returned two_tables)
           toy_exec_telegram_keeps
           (conn_of (runMigrations Toy.telegram_registry Toy.fresh))).
  apply reachable_run. apply reachable_fresh. reflexivity.
Defined.

(** ** More on the statement splitter *)

Module SplitterMore.

Lemma endsWith_SEMI_iff (s : jsstring) :
  endsWith SEMI s = true <-> exists p, s = p ++ [";"%char].
Proof.
  unfold endsWith. change (rev SEMI) with [";"%char]. split.
  - intros H. destruct (rev s) as [|c r] eqn:E; [discriminate|].
    cbn [startsWith] in H. apply andb_true_iff in H. destruct H as [H _].
    apply Ascii.eqb_eq in H. subst c.
    exists (rev r). rewrite <- (rev_involutive s), E. reflexivity.
  - intros [p ->]. rewrite rev_app_distr. simpl. reflexivity.
Qed.

Lemma trimStart_suffix (y : jsstring) : exists w, y = w ++ trimStart y.
Proof.
  induction y as [|c y [w Hw]]; [now exists []|].
  simpl. destruct (isWhiteSpace c).
  - exists (c :: w). simpl. now rewrite <- Hw.
  - now exists [].
Qed.

Lemma trimStart_snoc (z : jsstring) (c : ascii) :
  isWhiteSpace c = false -> exists q, trimStart (z ++ [c]) = q ++ [c].
Proof.
  intros Hc. induction z as [|a z [q Hq]]; simpl.
  - rewrite Hc. now exists [].
  - destruct (isWhiteSpace a); [now exists q|]. now exists (a :: z).
Qed.

(** A buffer pushed at a line that ends with [;] ends with [;]. *)
Lemma pushed_ends_with_semi (buf line : jsstring) :
  endsWith SEMI (trim line) = true ->
  endsWith SEMI (trim (buf ++ line ++ [LF])) = true.
Proof.
  intros H. pose proof (endsWith_SEMI_visible _ H) as Hvis.
  apply endsWith_SEMI_iff in H. destruct H as [p Hp].
  assert (Hte : trimEnd line <> []).
  { intros E. apply Hvis. unfold trim. now rewrite <- trim_commute, E. }
  unfold trim in *. rewrite <- trim_commute in *.
  rewrite app_assoc, trimEnd_app_white by reflexivity.
  rewrite trimEnd_app by exact Hte.
  destruct (trimStart_suffix (trimEnd line)) as [w Hw].
  rewrite Hp in Hw. rewrite Hw.
  replace (buf ++ w ++ p ++ [";"%char]) with ((buf ++ w ++ p) ++ [";"%char])
    by now rewrite <- !app_assoc.
  destruct (trimStart_snoc (buf ++ w ++ p) ";"%char eq_refl) as [q ->].
  apply endsWith_SEMI_iff. now exists q.
Qed.

(** A line pushes at most one statement, and only when it ends with [;]. *)
Lemma parse_line_pushes (st : PState) (line : jsstring) :
  statements (parse_line st line) = statements st \/
  (endsWith SEMI (trim line) = true /\
   statements (parse_line st line) =
     statements st ++ [trim (currentStatement st ++ line ++ [LF])]).
Proof.
  unfold parse_line. cbv zeta.
  destruct (negb (truthy (trim line))); [now left|].
  destruct (endsWith SEMI (trim line)); [|now left].
  destruct (startsWith CREATE_TRIGGER (toUpperCase (trim line)));
    destruct (inTrigger st);
    destruct (includes END_MARK (toUpperCase (trim line)));
    cbn [andb negb statements]; auto.
Qed.

Lemma parse_lines_semi (lines : list jsstring) : forall st : PState,
  Forall (fun s => endsWith SEMI s = true) (statements st) ->
  Forall (fun s => endsWith SEMI s = true) (statements (parse_lines lines st)).
Proof.
  induction lines as [|line lines IH]; intros st H; [exact H|].
  simpl. apply IH.
  destruct (parse_line_pushes st line) as [-> | [He ->]]; [exact H|].
  apply Forall_app. split; [exact H|].
  constructor; [|constructor]. now apply pushed_ends_with_semi.
Qed.

Lemma Forall_removelast {A} (P : A -> Prop) (l : list A) :
  Forall P l -> Forall P (removelast l).
Proof.
  induction 1 as [|x l Hx Hl IH]; simpl; [constructor|].
  destruct l; [constructor | now constructor].
Qed.

(** The flag is set only while the buffer holds something. *)
Lemma flag_needs_buffer (lines : list jsstring) : forall st : PState,
  (inTrigger st = true -> currentStatement st <> []) ->
  inTrigger (parse_lines lines st) = true ->
  currentStatement (parse_lines lines st) <> [].
Proof.
  induction lines as [|line lines IH]; intros st H; [exact H|].
  simpl. apply IH. clear IH.
  unfold parse_line. cbv zeta.
  destruct (negb (truthy (trim line))); [exact H|].
  assert (Hne : currentStatement st ++ line ++ [LF] <> []).
  { intros E. apply app_eq_nil in E. destruct E as [_ E].
    apply app_eq_nil in E. destruct E; discriminate. }
  destruct (endsWith SEMI (trim line));
    destruct (startsWith CREATE_TRIGGER (toUpperCase (trim line)));
    destruct (inTrigger st);
    destruct (includes END_MARK (toUpperCase (trim line)));
    cbn [andb negb currentStatement inTrigger]; intros; (discriminate || exact Hne).
Qed.

(** Statements already pushed play no part in what the lines do. *)
Lemma parse_line_prefix (pre : list jsstring) (st : PState) (line : jsstring) :
  parse_line (mkPState (pre ++ statements st) (currentStatement st) (inTrigger st)) line =
    mkPState (pre ++ statements (parse_line st line))
             (currentStatement (parse_line st line))
             (inTrigger (parse_line st line)).
Proof.
  unfold parse_line. cbv zeta. cbn [statements currentStatement inTrigger].
  destruct (negb (truthy (trim line))); [reflexivity|].
  destruct (endsWith SEMI (trim line));
    destruct (startsWith CREATE_TRIGGER (toUpperCase (trim line)));
    destruct (inTrigger st);
    destruct (includes END_MARK (toUpperCase (trim line)));
    cbn [andb negb statements currentStatement inTrigger];
    rewrite ?app_assoc; reflexivity.
Qed.

Lemma parse_lines_prefix (lines : list jsstring) : forall (pre : list jsstring) (st : PState),
  parse_lines lines
    (mkPState (pre ++ statements st) (currentStatement st) (inTrigger st)) =
    mkPState (pre ++ statements (parse_lines lines st))
             (currentStatement (parse_lines lines st))
             (inTrigger (parse_lines lines st)).
Proof.
  induction lines as [|line lines IH]; intros pre st; [reflexivity|].
  simpl. rewrite parse_line_prefix. apply IH.
Qed.

(** With the flag clear, lines that neither open a trigger nor end with [;]
    only join the buffer. *)
Lemma parse_lines_accumulate (g : list jsstring) : forall st : PState,
  inTrigger st = false ->
  Forall (fun l => opens l = false) g ->
  Forall (fun l => endsWith SEMI (trim l) = false) g ->
  parse_lines g st =
    mkPState (statements st) (currentStatement st ++ joined (filter visible g)) false.
Proof.
  induction g as [|l g IH]; intros st Hf Ho He.
  - simpl. rewrite app_nil_r. destruct st; simpl in *. now subst.
  - inversion Ho as [|? ? Hol Ho']; inversion He as [|? ? Hel He']; subst.
    simpl. unfold visible at 1. destruct (blank l) eqn:Hb; simpl.
    + rewrite parse_line_blank by exact Hb. now apply IH.
    + assert (Hstep : parse_line st l =
                mkPState (statements st) (currentStatement st ++ l ++ [LF]) false).
      { unfold opens in Hol. unfold blank in Hb.
        unfold parse_line. rewrite Hb, Hol, Hel, Hf. reflexivity. }
      rewrite Hstep.
      change (fold_left parse_line g ?s) with (parse_lines g s).
      rewrite IH by (reflexivity || assumption). simpl.
      rewrite joined_cons, <- !app_assoc. reflexivity.
Qed.

(** With the flag clear, a line that ends with [;] and opens no trigger
    pushes the buffer. *)
Lemma parse_line_terminates (st : PState) (line : jsstring) :
  inTrigger st = false ->
  opens line = false ->
  endsWith SEMI (trim line) = true ->
  parse_line st line =
    mkPState (statements st ++ [trim (currentStatement st ++ line ++ [LF])])
             [] false.
Proof.
  intros Hf Ho He.
  assert (Hb : negb (truthy (trim line)) = false).
  { apply negb_false_iff, truthy_true_iff. now apply endsWith_SEMI_visible. }
  unfold opens in Ho. unfold parse_line. rewrite Hb, Ho, He, Hf. reflexivity.
Qed.

Lemma filter_visible_nil (lines : list jsstring) :
  filter visible lines = [] <-> Forall (fun l => blank l = true) lines.
Proof.
  induction lines as [|l lines IH]; simpl.
  - split; [constructor | reflexivity].
  - unfold visible at 1. destruct (blank l) eqn:Hb; simpl.
    + rewrite IH. split; [now constructor | now inversion 1].
    + split; [discriminate|]. inversion 1; congruence.
Qed.

End SplitterMore.

Import SplitterMore.

(** X9.  [parseSQL] returns no statement exactly when every line of the
    input is blank; in particular on the empty string. *)
Theorem parseSQL_nil_iff (sql : jsstring) :
  parseSQL sql = [] <-> Forall (fun l => blank l = true) (split_lines sql).
Proof.
  destruct (parseSQL_groups sql) as (groups & Hne & Hcat & Hp).
  rewrite <- filter_visible_nil, <- Hcat, Hp. split.
  - intros H. apply map_eq_nil in H. now subst.
  - intros H. destruct groups as [|g groups]; [reflexivity|].
    inversion Hne as [|? ? Hg _]; subst.
    simpl in H. apply app_eq_nil in H. destruct H. congruence.
Qed.

(** X10.  Every statement [parseSQL] returns is trimmed, and every statement
    but the last ends with [;]: only the residual buffer pushed at the end
    of the input can lack its terminator. *)
Theorem statements_trimmed_and_terminated (sql : jsstring) :
  Forall (fun s => trim s = s) (parseSQL sql) /\
  Forall (fun s => endsWith SEMI s = true) (removelast (parseSQL sql)).
Proof.
  split.
  - destruct (parseSQL_groups sql) as (groups & _ & _ & ->).
    apply Forall_forall. intros s Hs. apply in_map_iff in Hs.
    destruct Hs as (g & <- & _). unfold rendered. apply trim_idem.
  - unfold parseSQL, flush.
    pose proof (parse_lines_semi (split_lines sql) initial (Forall_nil _)) as H.
    destruct (truthy (trim (currentStatement (parse_lines (split_lines sql) initial)))).
    + now rewrite removelast_last.
    + now apply Forall_removelast.
Qed.

(** X11.  A trigger that is never closed swallows the rest of the input:
    when no line after the [CREATE TRIGGER] line both ends with [;] and
    contains [END;], everything from that line to the end of the input comes
    out as one statement. *)
Theorem unclosed_trigger_swallows_the_rest (header : jsstring) (rest : list jsstring) :
  Forall (fun l => ~ In LF l) (header :: rest) ->
  opens header = true ->
  closes header = false ->
  Forall (fun l => closes l = false) rest ->
  parseSQL (joined (header :: rest)) = [rendered (header :: filter visible rest)].
Proof.
  intros Hn Ho Hh Hr.
  unfold parseSQL. rewrite split_lines_joined by exact Hn.
  change ((header :: rest) ++ [[]]) with ([header] ++ (rest ++ [[]])).
  rewrite (parse_lines_app [header]), (parse_lines_app rest).
  change (parse_lines [header] initial) with (parse_line initial header).
  rewrite (parse_line_opens initial header Ho Hh).
  rewrite (parse_lines_inside rest) by (reflexivity || assumption).
  change (parse_lines [[]] ?s) with (parse_line s []).
  rewrite parse_line_blank by reflexivity.
  unfold flush. cbn [currentStatement statements initial app].
  assert (Hbuf : header ++ [LF] ++ joined (filter visible rest) =
                 joined (header :: filter visible rest)).
  { now rewrite joined_cons. }
  rewrite <- app_assoc, Hbuf.
  assert (Ht : truthy (trim (joined (header :: filter visible rest))) = true).
  { apply truthy_true_iff, blank_false_iff, joined_visible; [discriminate|].
    constructor; [now apply opens_visible|].
    apply Forall_forall. intros l Hl. apply filter_In in Hl.
    destruct Hl as [_ Hv]. unfold visible in Hv. now apply negb_true_iff. }
  rewrite Ht. reflexivity.
Qed.

(** X13.  Splitting composes at statement boundaries: when the lines [A]
    leave nothing in the buffer, the statements of [A] followed by [B] are
    those of [A] followed by those of [B]. *)
Theorem parseSQL_composes (A B : list jsstring) :
  Forall (fun l => ~ In LF l) (A ++ B) ->
  currentStatement (parse_lines A initial) = [] ->
  parseSQL (joined (A ++ B)) = parseSQL (joined A) ++ parseSQL (joined B).
Proof.
  intros Hn Hbuf.
  apply Forall_app in Hn. destruct Hn as [HnA HnB].
  assert (Hflag : inTrigger (parse_lines A initial) = false).
  { destruct (inTrigger (parse_lines A initial)) eqn:E; [|reflexivity].
    exfalso. apply (flag_needs_buffer A initial); [discriminate | exact E | exact Hbuf]. }
  unfold parseSQL.
  rewrite !split_lines_joined by (assumption || (apply Forall_app; now split)).
  rewrite <- app_assoc, (parse_lines_app A (B ++ [[]])).
  rewrite (parse_lines_app A [[]]).
  change (parse_lines [[]] (parse_lines A initial))
    with (parse_line (parse_lines A initial) []).
  rewrite parse_line_blank by reflexivity.
  destruct (parse_lines A initial) as [SA cur flag].
  cbn [currentStatement inTrigger] in Hbuf, Hflag. subst cur flag.
  assert (E : parse_lines (B ++ [[]]) (mkPState SA [] false) =
              mkPState (SA ++ statements (parse_lines (B ++ [[]]) initial))
                       (currentStatement (parse_lines (B ++ [[]]) initial))
                       (inTrigger (parse_lines (B ++ [[]]) initial))).
  { rewrite <- (parse_lines_prefix (B ++ [[]]) SA initial).
    cbn [statements currentStatement inTrigger initial]. now rewrite app_nil_r. }
  rewrite E. unfold flush. cbn [statements currentStatement].
  change (truthy (trim [])) with false. cbv iota.
  destruct (truthy (trim (currentStatement (parse_lines (B ++ [[]]) initial))));
    [now rewrite app_assoc | reflexivity].
Qed.

(** X14.  Outside a trigger a statement may span lines: lines that neither
    open a trigger nor end with [;], followed by a line that ends with [;],
    come out as one statement. *)
Theorem statement_spanning_lines (g : list jsstring) (l : jsstring) :
  Forall (fun x => ~ In LF x) (g ++ [l]) ->
  Forall (fun x => opens x = false) (g ++ [l]) ->
  Forall (fun x => endsWith SEMI (trim x) = false) g ->
  endsWith SEMI (trim l) = true ->
  parseSQL (joined (g ++ [l])) = [rendered (filter visible g ++ [l])].
Proof.
  intros Hn Ho Hg Hl.
  apply Forall_app in Ho. destruct Ho as [Hog Hol].
  inversion Hol as [|? ? Hol' _]; subst.
  unfold parseSQL. rewrite split_lines_joined by exact Hn.
  rewrite <- app_assoc, (parse_lines_app g).
  rewrite (parse_lines_accumulate g initial eq_refl Hog Hg).
  change (parse_lines ([l] ++ [[]]) ?s) with (parse_line (parse_line s l) []).
  rewrite (parse_line_terminates _ l) by (reflexivity || assumption).
  rewrite parse_line_blank by reflexivity.
  unfold flush. cbn [currentStatement statements initial app].
  change (truthy (trim [])) with false. cbv iota.
  unfold rendered. rewrite joined_app, joined_cons. reflexivity.
Qed.

Lemma unclosed_trigger_swallows_the_rest_witness :
  parseSQL
    (joined (lit "CREATE TRIGGER trg AFTER UPDATE ON t" ::
             [lit "BEGIN"; lit "  UPDATE t SET touched = 1;";
              lit "END; -- done"; lit "CREATE TABLE u (id INT);"])) =
    [rendered
       (lit "CREATE TRIGGER trg AFTER UPDATE ON t" ::
        filter visible
          [lit "BEGIN"; lit "  UPDATE t SET touched = 1;";
           lit "END; -- done"; lit "CREATE TABLE u (id INT);"])].
Proof.
  apply (unclosed_trigger_swallows_the_rest
           (lit "CREATE TRIGGER trg AFTER UPDATE ON t")
           [lit "BEGIN"; lit "  UPDATE t SET touched = 1;";
            lit "END; -- done"; lit "CREATE TABLE u (id INT);"]).
  - no_line_feed.
  - vm_compute. reflexivity.
  - vm_compute. reflexivity.
  - repeat constructor.
Defined.

Lemma trigger_without_inner_end_witness :
  parseSQL
    (joined (lit "CREATE TRIGGER trg AFTER UPDATE ON t" ::
             [lit "BEGIN"; lit "  UPDATE t SET touched = 1;"; lit ""] ++
             [lit "END;"])) =
    [rendered
       (lit "CREATE TRIGGER trg AFTER UPDATE ON t" ::
        filter visible [lit "BEGIN"; lit "  UPDATE t SET touched = 1;"; lit ""] ++
        [lit "END;"])].
Proof.
  apply (trigger_without_inner_end
           (lit "CREATE TRIGGER trg AFTER UPDATE ON t")
           [lit "BEGIN"; lit "  UPDATE t SET touched = 1;"; lit ""]
           (lit "END;")).
  - no_line_feed.
  - vm_compute. reflexivity.
  - vm_compute. reflexivity.
  - repeat constructor.
  - vm_compute. reflexivity.
Defined.

Lemma parseSQL_composes_witness :
  parseSQL
    (joined ([lit "CREATE TABLE t ("; lit "  id INT"; lit ");"] ++
             [lit "CREATE TRIGGER trg AFTER UPDATE ON t"; lit "BEGIN";
              lit "  UPDATE t SET touched = 1;"; lit "END;"])) =
    parseSQL (joined [lit "CREATE TABLE t ("; lit "  id INT"; lit ");"]) ++
    parseSQL
      (joined [lit "CREATE TRIGGER trg AFTER UPDATE ON t"; lit "BEGIN";
               lit "  UPDATE t SET touched = 1;"; lit "END;"]).
Proof.
  apply (parseSQL_composes
           [lit "CREATE TABLE t ("; lit "  id INT"; lit ");"]
           [lit "CREATE TRIGGER trg AFTER UPDATE ON t"; lit "BEGIN";
            lit "  UPDATE t SET touched = 1;"; lit "END;"]).
  - no_line_feed.
  - vm_compute. reflexivity.
Defined.

Lemma statement_spanning_lines_witness :
  parseSQL (joined ([lit "CREATE TABLE t ("; lit ""; lit "  id INT"] ++ [lit ");"])) =
    [rendered (filter visible [lit "CREATE TABLE t ("; lit ""; lit "  id INT"] ++
               [lit ");"])].
Proof.
  apply (statement_spanning_lines
           [lit "CREATE TABLE t ("; lit ""; lit "  id INT"] (lit ");")).
  - no_line_feed.
  - repeat constructor.
  - repeat constructor.
  - vm_compute. reflexivity.
Defined.

(** ** The loader of [schema.sql] *)

Module LoaderFacts.

Lemma join_lines_cons (l : jsstring) (ls : list jsstring) :
  ls <> [] -> join_lines (l :: ls) = l ++ LF :: join_lines ls.
Proof. destruct ls; [congruence | reflexivity]. Qed.

(** [split('\n')] then [join('\n')] gives the text back. *)
Lemma join_split (x : jsstring) : join_lines (split_lines x) = x.
Proof.
  induction x as [|c x IH]; [reflexivity|].
  simpl split_lines. destruct (Ascii.eqb_spec c LF) as [->|_].
  - rewrite join_lines_cons by apply split_lines_not_nil. now rewrite IH.
  - pose proof (split_lines_not_nil x) as Hne.
    destruct (split_lines x) as [|l ls]; [congruence|].
    destruct ls as [|l2 ls].
    + simpl in *. now rewrite IH.
    + rewrite (join_lines_cons (c :: l)) by discriminate.
      rewrite (join_lines_cons l) in IH by discriminate.
      rewrite <- IH. reflexivity.
Qed.

(** [join('\n')] then [split('\n')] gives the lines back. *)
Lemma split_join (ls : list jsstring) :
  ls <> [] ->
  Forall (fun l => ~ In LF l) ls ->
  split_lines (join_lines ls) = ls.
Proof.
  induction ls as [|l ls IH]; [congruence|]. intros _ H.
  inversion H as [|? ? Hl Hls]; subst.
  destruct ls as [|l2 ls].
  - simpl. now apply split_lines_one.
  - rewrite join_lines_cons by discriminate.
    rewrite split_lines_app by exact Hl.
    rewrite IH; [reflexivity | discriminate | exact Hls].
Qed.

Lemma keep_line_trim (l : jsstring) : keep_line (trim l) = keep_line l.
Proof. unfold keep_line. now rewrite trim_idem. Qed.


(** Each statement is visible after trimming (the guard of the loader's loop
    never skips one). *)
Lemma parseSQL_statements_visible (sql : jsstring) :
  Forall (fun statement => truthy (trim statement) = true) (parseSQL sql).
Proof.
  destruct (parseSQL_groups sql) as (groups & Hne & Hcat & ->).
  apply Forall_forall. intros s Hs.
  apply in_map_iff in Hs. destruct Hs as (g & <- & Hg).
  unfold rendered. rewrite trim_idem.
  apply truthy_true_iff, blank_false_iff, joined_visible.
  - rewrite Forall_forall in Hne. now apply Hne.
  - apply Forall_forall. intros l Hl.
    assert (Hin : In l (filter visible (split_lines sql))).
    { rewrite <- Hcat. apply in_concat. eauto. }
    apply filter_In in Hin. destruct Hin as [_ Hv].
    unfold visible in Hv. now apply negb_true_iff.
Qed.


End LoaderFacts.

Import LoaderFacts.

(** X15.  [cleanSQL] keeps, in order, the lines that do not start (after
    trimming) with [--] or [PRAGMA], and nothing else: its lines are the kept
    lines of the input (one empty line when none is kept), every one of them
    is a kept line, and cleaning twice is cleaning once. *)
Theorem cleanSQL_keeps_the_other_lines (schemaSQL : jsstring) :
  split_lines (cleanSQL schemaSQL) =
    match filter keep_line (split_lines schemaSQL) with
    | [] => [[]]
    | kept => kept
    end /\
  Forall (fun l => keep_line l = true) (split_lines (cleanSQL schemaSQL)) /\
  cleanSQL (cleanSQL schemaSQL) = cleanSQL schemaSQL.
Proof.
  assert (Hkept : Forall (fun l => keep_line l = true)
                         (filter keep_line (split_lines schemaSQL))).
  { apply Forall_forall. intros l Hl. apply filter_In in Hl. tauto. }
  assert (Hlines : split_lines (cleanSQL schemaSQL) =
                   match filter keep_line (split_lines schemaSQL) with
                   | [] => [[]]
                   | kept => kept
                   end).
  { unfold cleanSQL.
    destruct (filter keep_line (split_lines schemaSQL)) as [|l ls] eqn:E;
      [reflexivity|].
    apply split_join; [discriminate|].
    apply Forall_forall. intros x Hx.
    assert (Hin : In x (split_lines schemaSQL)).
    { rewrite <- E in Hx. apply filter_In in Hx. tauto. }
    pose proof (split_lines_no_LF schemaSQL) as Hno.
    rewrite Forall_forall in Hno. now apply Hno. }
  assert (Hall : Forall (fun l => keep_line l = true) (split_lines (cleanSQL schemaSQL))).
  { rewrite Hlines.
    destruct (filter keep_line (split_lines schemaSQL)) as [|l ls];
      [repeat constructor | exact Hkept]. }
  split; [exact Hlines|]. split; [exact Hall|].
  unfold cleanSQL at 1.
  rewrite filter_all by (rewrite Forall_forall in Hall; exact Hall).
  apply join_split.
Qed.


Section LoaderRuns.

Variable Schema : Type.

Lemma for_each_guard {X} (body : X -> Act.Act Schema unit) (guard : X -> bool)
  (xs : list X) (d : DB Schema) :
  Forall (fun x => guard x = true) xs ->
  Act.for_each
    (fun x => if guard x
              then Act.try_catch (body x) (fun error => Act.throw error)
              else Act.ret tt) xs d =
  Act.for_each body xs d.
Proof.
  intros H. revert d. induction H as [|x xs Hx _ IH]; intros d; [reflexivity|].
  simpl. unfold Act.bind. rewrite Hx. unfold Act.try_catch, Act.throw.
  destruct (body x d) as [[[]|e] d1]; [apply IH | reflexivity].
Qed.

Lemma for_each_map {X Y} (f : X -> Y) (body : Y -> Act.Act Schema unit)
  (xs : list X) (d : DB Schema) :
  Act.for_each (fun x => body (f x)) xs d = Act.for_each body (map f xs) d.
Proof.
  revert d. induction xs as [|x xs IH]; intros d; [reflexivity|].
  simpl. unfold Act.bind. destruct (body (f x) d) as [[[]|e] d1];
    [apply IH | reflexivity].
Qed.

Lemma rethrow_is_identity {A} (m : Act.Act Schema A) (d : DB Schema) :
  Act.try_catch m (fun error => Act.throw error) d = m d.
Proof.
  unfold Act.try_catch, Act.throw. now destruct (m d) as [[a|e] d1].
Qed.

(** X16.  The loader of both registries: when [schema.sql] cannot be read it
    throws that error and leaves the database as it is; otherwise it hands
    to [exec], in order, every statement [parseSQL] cuts out of the cleaned
    text (its guard never skips one), stops at the first that throws and
    throws that error. *)
Theorem loader_runs_the_split_statements
  (exec : Stmt -> Act.Act Schema unit)
  (exec' : TelegramVariant.Stmt -> Act.Act Schema unit)
  (readSchemaFile : Outcome jsstring) (d : DB Schema) :
  match readSchemaFile with
  | Thrown e =>
      migration_001_initial_schema_consolidated exec readSchemaFile d =
        (Thrown e, d) /\
      TelegramVariant.migration_001_initial_schema_consolidated exec' readSchemaFile d =
        (Thrown e, d)
  | Returned schemaSQL =>
      migration_001_initial_schema_consolidated exec readSchemaFile d =
        exec_all exec (map SchemaStatement (parseSQL (cleanSQL schemaSQL))) d /\
      TelegramVariant.migration_001_initial_schema_consolidated exec' readSchemaFile d =
        TelegramVariant.exec_all exec'
          (map TelegramVariant.SchemaStatement (parseSQL (cleanSQL schemaSQL))) d
  end.
Proof.
  unfold migration_001_initial_schema_consolidated,
    TelegramVariant.migration_001_initial_schema_consolidated.
  rewrite !rethrow_is_identity.
  destruct readSchemaFile as [schemaSQL|e]; [|split; reflexivity].
  pose proof (parseSQL_statements_visible (cleanSQL schemaSQL)) as Hvis.
  split.
  - rewrite (for_each_guard (fun st => exec (SchemaStatement st))
               (fun st => truthy (trim st)) _ d Hvis).
    apply for_each_map.
  - rewrite (for_each_guard (fun st => exec' (TelegramVariant.SchemaStatement st))
               (fun st => truthy (trim st)) _ d Hvis).
    apply for_each_map.
Qed.

End LoaderRuns.

(** ** The unguarded bodies, and a start without [schema.sql] *)

Section BodiesRun.

Variable Schema : Type.

(** A loop over statements throws exactly when one of them throws after the
    ones before it returned; the content is then what that one left. *)
Lemma for_each_thrown_iff {X} (body : X -> Act.Act Schema unit) (xs : list X) :
  forall (d : DB Schema) (e : Error) (d' : DB Schema),
    Act.for_each body xs d = (Thrown e, d') <->
    exists pre x post d1,
      xs = pre ++ x :: post /\
      Act.for_each body pre d = (Returned tt, d1) /\
      body x d1 = (Thrown e, d').
Proof.
  induction xs as [|x xs IH]; intros d e d'.
  - split; [discriminate|]. intros (pre & x & post & d1 & H & _).
    now destruct pre.
  - simpl. unfold Act.bind at 1. split.
    + intros H. destruct (body x d) as [[[]|e0] d0] eqn:Hx.
      * apply IH in H. destruct H as (pre & y & post & d1 & -> & Hpre & Hy).
        exists (x :: pre), y, post, d1. repeat split; [|exact Hy].
        simpl. unfold Act.bind. now rewrite Hx.
      * inversion H; subst. exists [], x, xs, d. auto.
    + intros (pre & y & post & d1 & Hsplit & Hpre & Hy).
      destruct pre as [|p pre]; simpl in Hsplit; inversion Hsplit; subst.
      * inversion Hpre; subst. now rewrite Hy.
      * simpl in Hpre. unfold Act.bind in Hpre.
        destruct (body p d) as [[[]|e0] d0]; [|discriminate].
        apply IH. exists pre, y, post, d1. auto.
Qed.

(** X18.  Migration 003 and the second migration of the two-migration
    registry guard none of their statements: either throws [e] exactly when
    one of its statements throws [e] after the statements before it
    returned, and the statements after that one are not run. *)
Theorem unguarded_bodies_stop_at_the_first_error
  (exec : Stmt -> Act.Act Schema unit)
  (exec' : TelegramVariant.Stmt -> Act.Act Schema unit)
  (d : DB Schema) (e : Error) (d' : DB Schema) :
  (migration_003_add_scheduler_settings exec d = (Thrown e, d') <->
   exists pre s post d1,
     [ CREATE_scheduler_settings; CREATE_scheduler_settings_trigger;
       INSERT_scheduler_settings ] = pre ++ s :: post /\
     exec_all exec pre d = (Returned tt, d1) /\
     exec s d1 = (Thrown e, d')) /\
  (TelegramVariant.migration_002_add_notification_tables_telegram exec' d =
     (Thrown e, d') <->
   exists pre s post d1,
     [ TelegramVariant.CREATE_notification_settings;
       TelegramVariant.CREATE_notification_channels;
       TelegramVariant.CREATE_notification_history;
       TelegramVariant.CREATE_notification_templates;
       TelegramVariant.CREATE_notification_indexes;
       TelegramVariant.INSERT_notification_settings;
       TelegramVariant.INSERT_notification_templates ] = pre ++ s :: post /\
     TelegramVariant.exec_all exec' pre d = (Returned tt, d1) /\
     exec' s d1 = (Thrown e, d')).
Proof.
  split; apply for_each_thrown_iff.
Qed.

(** X19.  A start without [schema.sql]: on a database that records nothing,
    when the file cannot be read the run of either registry throws the
    error of the read, after one transaction that called the first action and
    was rolled back; the connection is the prepared one (pragma set,
    bookkeeping table empty) and no later migration is tried. *)
Theorem missing_schema_file_aborts_the_run
  (exec : Stmt -> Act.Act Schema unit)
  (exec' : TelegramVariant.Stmt -> Act.Act Schema unit)
  (e : Error) (c : Conn Schema) :
  recorded (db c) = [] ->
  runMigrations (migrations exec (Thrown e)) c =
    (Thrown e, prepared c, [EvBegin; EvUp 1; EvRollback]) /\
  runMigrations (TelegramVariant.migrations exec' (Thrown e)) c =
    (Thrown e, prepared c, [EvBegin; EvUp 1; EvRollback]) /\
  rows (db (prepared c)) = [].
Proof.
  intros Hfresh.
  assert (Hcv : currentVersion c = 0%Z).
  { now rewrite currentVersion_recorded, Hfresh. }
  repeat split.
  - rewrite runMigrations_unfold, Hcv.
    change (pending (migrations exec (Thrown e)) 0)
      with (migrations exec (Thrown e)).
    unfold migrations. rewrite run_pending_cons, run_one_spec. reflexivity.
  - rewrite runMigrations_unfold, Hcv.
    change (pending (TelegramVariant.migrations exec' (Thrown e)) 0)
      with (TelegramVariant.migrations exec' (Thrown e)).
    unfold TelegramVariant.migrations. rewrite run_pending_cons, run_one_spec.
    reflexivity.
  - rewrite rows_prepared. rewrite recorded_rows in Hfresh.
    now destruct (rows (db c)).
Qed.

End BodiesRun.

Lemma missing_schema_file_aborts_the_run_witness :
  runMigrations (migrations Toy.exec (Thrown (JsError "ENOENT"))) Toy.fresh =
    (Thrown (JsError "ENOENT"), prepared Toy.fresh, [EvBegin; EvUp 1; EvRollback]) /\
  runMigrations
    (TelegramVariant.migrations Toy.exec_telegram (Thrown (JsError "ENOENT")))
    Toy.fresh =
    (Thrown (JsError "ENOENT"), prepared Toy.fresh, [EvBegin; EvUp 1; EvRollback]) /\
  rows (db (prepared Toy.fresh)) = [].
Proof.
  apply (missing_schema_file_aborts_the_run Toy.TSchema Toy.exec Toy.exec_telegram
           (JsError "ENOENT") Toy.fresh).
  reflexivity.
Defined.
